(** * Event queue of the chat widget: public/main.js

    A shallow embedding of the event buffer of [public/main.js] and the
    properties of its ingestion handler and of its 500 ms drain callback.

    The file [main.js] holds three successive drafts of the same module.
    The first one (lazy timer start, named helpers) is embedded in
    [Module Draft1], the drain callback of the third one (same timer
    policy, written inline) in [Module Draft3].  The helpers [sortEvents],
    [removeDuplicateEvents], [getFirstNotAnimatedGiftEventIndex],
    [calculateTimeDifferenceInSecondsAccordingToNow] and
    [ignoreFirstEventWithTypeMessageOlderThan20Seconds] have the same text
    in both drafts and are embedded once. *)

From Stdlib Require Import ZArith QArith Lia.
From stdpp Require Import base decidable option list relations gmap strings.

Set Warnings "-clear-no-such-hyp".
Local Open Scope Z_scope.

(** ** Data *)

(** Modelled from the spec: [api.js] (the table [API_EVENT_TYPE]) is not part
    of the sources.  The code names [ANIMATED_GIFT] and [MESSAGE]; the
    third kind stands for every kind without special handling. *)
Inductive API_EVENT_TYPE : Set := ANIMATED_GIFT | MESSAGE | GIFT.

#[global] Instance API_EVENT_TYPE_eq_dec : EqDecision API_EVENT_TYPE.
Proof. solve_decision. Defined.

(** An event as the handler receives it.  [id] is compared with [===] and
    collected in a [Set]; on integers both are plain equality.
    [timestamp] is the value of [new Date(timestamp).getTime()], in
    milliseconds; [payload] stands for the fields the queue never reads. *)
Record Event : Set := mkEvent {
  id : Z;
  type : API_EVENT_TYPE;
  timestamp : Z;
  payload : string
}.

#[global] Instance Event_eq_dec : EqDecision Event.
Proof. solve_decision. Defined.

(** Modelled from the spec: [dom_updates.js] is not part of the sources.
    Its two updating functions, [addMessage] and [animateGift], return
    nothing and do not fail; a call is recorded with its argument, an event
    or [undefined] ([None]): [shift] and [splice(..)[0]] yield [undefined]
    on an empty result. *)
Inductive DomCall : Set :=
  | addMessage (arg : option Event)
  | animateGift (arg : option Event).

#[global] Instance DomCall_eq_dec : EqDecision DomCall.
Proof. solve_decision. Defined.

(** The only exception the embedded code can raise: reading a property of
    [undefined]. *)
Inductive Error : Set := TypeError.

(** The module's two variables, [eventQueue] and [globalInterval], with the
    part of the host they act on: the intervals that are running, the next
    handle [setInterval] hands out, and the calls made to [dom_updates.js]
    so far. *)
Record World : Type := mkWorld {
  eventQueue : list Event;
  globalInterval : option positive;
  intervals : gset positive;
  nextHandle : positive;
  domCalls : list DomCall
}.

(** Modelled from the spec: what one run of the drain callback reads from
    the host, the clock ([new Date().getTime()], whole milliseconds, one
    reading for the run) and the two boolean animation flags of
    [dom_updates.js]. *)
Record Host : Set := mkHost {
  now : Z;
  isAnimatingGiftUI : bool;
  isPossiblyAnimatingGift : bool
}.

(** ** Computations: state and exceptions *)

Inductive Completion (A : Type) : Type :=
  | Return (a : A)
  | Throw (e : Error).
Arguments Return {A} a.
Arguments Throw {A} e.

(** A statement runs in a world and completes normally or abruptly; the
    world it leaves behind is kept in both cases, as assignments made
    before a [throw] are. *)
Definition JS (A : Type) : Type := World → Completion A * World.

Definition ret {A} (a : A) : JS A := λ w, (Return a, w).

Definition bind {A B} (m : JS A) (k : A → JS B) : JS B :=
  λ w, match m w with
       | (Return a, w') => k a w'
       | (Throw e, w') => (Throw e, w')
       end.

Definition throw {A} (e : Error) : JS A := λ w, (Throw e, w).

Notation "x <- m ;; k" := (bind m (λ x, k))
  (at level 100, m at next level, right associativity,
   format "'[v' x  <-  m  ;;  '/' k ']'").
Notation "m ;;; k" := (bind m (λ _, k))
  (at level 100, right associativity,
   format "'[v' m  ;;;  '/' k ']'").

Definition exec {A} (m : JS A) (w : World) : World := (m w).2.
Definition completion {A} (m : JS A) (w : World) : Completion A := (m w).1.

Definition getEventQueue : JS (list Event) := λ w, (Return (eventQueue w), w).

Definition setEventQueue (q : list Event) : JS unit := λ w,
  (Return tt,
   {| eventQueue := q; globalInterval := globalInterval w;
      intervals := intervals w; nextHandle := nextHandle w;
      domCalls := domCalls w |}).

Definition getGlobalInterval : JS (option positive) :=
  λ w, (Return (globalInterval w), w).

Definition setGlobalInterval (h : option positive) : JS unit := λ w,
  (Return tt,
   {| eventQueue := eventQueue w; globalInterval := h;
      intervals := intervals w; nextHandle := nextHandle w;
      domCalls := domCalls w |}).

(** [setInterval(callback, 500)]: the host registers a new interval and
    returns its handle, a positive number.  Every interval of this module
    runs the drain callback, so the callback is not recorded. *)
Definition setInterval : JS positive := λ w,
  (Return (nextHandle w),
   {| eventQueue := eventQueue w; globalInterval := globalInterval w;
      intervals := {[ nextHandle w ]} ∪ intervals w;
      nextHandle := Pos.succ (nextHandle w);
      domCalls := domCalls w |}).

(** [clearInterval(handle)]; [clearInterval(null)] does nothing. *)
Definition clearInterval (h : option positive) : JS unit := λ w,
  (Return tt,
   {| eventQueue := eventQueue w; globalInterval := globalInterval w;
      intervals := match h with
                   | Some i => intervals w ∖ {[ i ]}
                   | None => intervals w
                   end;
      nextHandle := nextHandle w;
      domCalls := domCalls w |}).

Definition callDom (c : DomCall) : JS unit := λ w,
  (Return tt,
   {| eventQueue := eventQueue w; globalInterval := globalInterval w;
      intervals := intervals w; nextHandle := nextHandle w;
      domCalls := domCalls w ++ [c] |}).

(** [eventQueue.push(...events)] *)
Definition push (events : list Event) : JS unit :=
  q <- getEventQueue ;; setEventQueue (q ++ events).

(** [eventQueue.shift()]: removes and returns the first element,
    [undefined] on an empty array. *)
Definition shift : JS (option Event) :=
  q <- getEventQueue ;;
  match q with
  | [] => ret None
  | e :: q' => setEventQueue q' ;;; ret (Some e)
  end.

(** [eventQueue.splice(index, 1)[0]] for an index that is not negative:
    removes the element at [index] and returns it, [undefined] when there
    is none. *)
Definition splice1 (index : nat) : JS (option Event) :=
  q <- getEventQueue ;;
  setEventQueue (delete index q) ;;;
  ret (q !! index).

(** [eventQueue[0].type]: a [TypeError] when the array is empty. *)
Definition firstEventType : JS API_EVENT_TYPE :=
  q <- getEventQueue ;;
  match q with
  | [] => throw TypeError
  | e :: _ => ret (type e)
  end.

(** ** Helpers shared by the drafts *)

(** [new Set(values)] followed by [Array.from]: a set keeps its members in
    insertion order and adding a member again changes nothing. *)
Definition Set_add (s : list Z) (x : Z) : list Z :=
  if decide (x ∈ s) then s else s ++ [x].

Definition Array_from_Set (values : list Z) : list Z :=
  foldl Set_add [] values.

(** [array.find(predicate)]: the first element satisfying it, or
    [undefined]. *)
Definition find_by_id (q : list Event) (i : Z) : option Event :=
  snd <$> list_find (λ item, id item = i) q.

(** The array [removeDuplicateEvents] assigns to [eventQueue], slot by
    slot. *)
Definition removeDuplicateEvents_slots (q : list Event) : list (option Event) :=
  find_by_id q <$> Array_from_Set (id <$> q).

(** No slot is [undefined] (lemma [removeDuplicateEvents_slots_defined]
    below: each id of the set is the id of an element of the queue), so
    the new queue is the list of the slots' events. *)
Definition removeDuplicateEvents_array (q : list Event) : list Event :=
  omap (λ slot, slot) (removeDuplicateEvents_slots q).

Definition removeDuplicateEvents : JS unit :=
  q <- getEventQueue ;; setEventQueue (removeDuplicateEvents_array q).

Definition sortEvents (events : list Event) : list Event :=
  let animatedGiftEvents := filter (λ event, type event = ANIMATED_GIFT) events in
  let otherEvents := filter (λ event, type event ≠ ANIMATED_GIFT) events in
  animatedGiftEvents ++ otherEvents.

(** The [for] loop of [getFirstNotAnimatedGiftEventIndex], from index [i]
    on the remaining elements. *)
Fixpoint firstNotAnimatedGiftFrom (i : Z) (q : list Event) : Z :=
  match q with
  | [] => -1
  | e :: q' =>
      if decide (type e ≠ ANIMATED_GIFT) then i
      else firstNotAnimatedGiftFrom (i + 1) q'
  end.

Definition getFirstNotAnimatedGiftEventIndex : JS Z :=
  q <- getEventQueue ;; ret (firstNotAnimatedGiftFrom 0 q).

(** Seconds between the event and the clock.  The readings are whole
    milliseconds; the double division by 1000 is correctly rounded and
    monotone and 20000 / 1000 is exactly 20, so comparing the quotient
    with 20 gives the same answer on doubles as on rationals. *)
Definition calculateTimeDifferenceInSecondsAccordingToNow
    (host : Host) (timestamp : Z) : Q :=
  let differenceInMilliseconds := now host - timestamp in
  (inject_Z differenceInMilliseconds / inject_Z 1000)%Q.

(** [differenceInSeconds > 20] *)
Definition greaterThan20 (differenceInSeconds : Q) : bool :=
  negb (Qle_bool differenceInSeconds (inject_Z 20)).

(** The [while] loop of
    [ignoreFirstEventWithTypeMessageOlderThan20Seconds] on the queue it
    finds: it returns the queue it leaves and how it completes.  Each
    iteration that goes on removes the first element, hence the recursion
    on the queue. *)
Fixpoint ignoreLoop (host : Host) (q : list Event) : Completion unit * list Event :=
  match q with
  | [] => (Throw TypeError, [])
  | e :: q' =>
      if decide (type e = MESSAGE) then
        let differenceInSeconds :=
          calculateTimeDifferenceInSecondsAccordingToNow host (timestamp e) in
        if greaterThan20 differenceInSeconds then ignoreLoop host q'
        else (Return tt, q)
      else (Return tt, q)
  end.

Definition ignoreFirstEventWithTypeMessageOlderThan20Seconds (host : Host) : JS unit :=
  q <- getEventQueue ;;
  setEventQueue (ignoreLoop host q).2 ;;;
  match (ignoreLoop host q).1 with
  | Return _ => ret tt
  | Throw e => throw e
  end.

(** ** First draft *)

Module Draft1.

(** The callback registered with [api.setEventHandler]. *)
Definition eventHandler (events : list Event) : JS unit :=
  if decide (0 < length events)%nat then
    push (sortEvents events) ;;;
    removeDuplicateEvents ;;;
    g <- getGlobalInterval ;;
    match g with
    | None => h <- setInterval ;; setGlobalInterval (Some h)
    | Some _ => ret tt
    end
  else ret tt.

Definition processNormalEvent : JS unit :=
  first <- shift ;; callDom (addMessage first).

Definition isAnyAnimatingGiftNotPlaying (host : Host) : bool :=
  negb (isAnimatingGiftUI host) && negb (isPossiblyAnimatingGift host).

Definition processAnimatedGiftEvent : JS unit :=
  currentEvent <- shift ;;
  callDom (addMessage currentEvent) ;;;
  callDom (animateGift currentEvent).

(** [splice] is reached with [index] different from -1 only, that is with
    an index of the queue. *)
Definition processFirstNotAnimatedGiftEvent : JS unit :=
  index <- getFirstNotAnimatedGiftEventIndex ;;
  if decide (index ≠ -1) then
    removed <- splice1 (Z.to_nat index) ;; callDom (addMessage removed)
  else ret tt.

Definition stopGlobalInterval : JS unit :=
  g <- getGlobalInterval ;;
  clearInterval g ;;;
  setGlobalInterval None.

Definition isFirstEventInQueueAnAnimatedGift : JS bool :=
  t <- firstEventType ;; ret (bool_decide (t = ANIMATED_GIFT)).

(** The callback of the interval.  It returns [false] when it found the
    queue empty and [true] otherwise. *)
Definition checkEventQueueAndMakeNecessaryDomUpdate (host : Host) : JS bool :=
  q <- getEventQueue ;;
  if decide (length q ≤ 0)%nat then
    stopGlobalInterval ;;;
    ret false
  else
    ignoreFirstEventWithTypeMessageOlderThan20Seconds host ;;;
    gift <- isFirstEventInQueueAnAnimatedGift ;;
    if gift then
      (if isAnyAnimatingGiftNotPlaying host then processAnimatedGiftEvent
       else processFirstNotAnimatedGiftEvent) ;;;
      ret true
    else
      processNormalEvent ;;;
      ret true.

(** The module as loaded: empty queue, no interval. *)
Definition initial : World :=
  {| eventQueue := []; globalInterval := None; intervals := ∅;
     nextHandle := 1%positive; domCalls := [] |}.

(** What can happen next: the API delivers a block of events, or a running
    interval fires.  An exception thrown by either callback is reported by
    the host and leaves the world as the callback left it. *)
Inductive step : World → World → Prop :=
  | step_events (events : list Event) (w : World) :
      step w (exec (eventHandler events) w)
  | step_interval (host : Host) (h : positive) (w : World) :
      h ∈ intervals w →
      step w (exec (checkEventQueueAndMakeNecessaryDomUpdate host) w).

Definition reachable (w : World) : Prop := rtc step initial w.

(** The handler called on each block of a list in turn. *)
Definition handleAll (batches : list (list Event)) (w : World) : World :=
  foldl (λ w events, exec (eventHandler events) w) w batches.

End Draft1.

(** ** Third draft: the drain callback *)

Module Draft3.

Definition checkEventQueueAndMakeNecessaryDomUpdate (host : Host) : JS unit :=
  q <- getEventQueue ;;
  if decide (length q ≤ 0)%nat then
    g <- getGlobalInterval ;;
    clearInterval g ;;;
    setGlobalInterval None
  else
    ignoreFirstEventWithTypeMessageOlderThan20Seconds host ;;;
    t <- firstEventType ;;
    if decide (t = ANIMATED_GIFT) then
      if negb (isAnimatingGiftUI host) && negb (isPossiblyAnimatingGift host) then
        currentEvent <- shift ;;
        callDom (addMessage currentEvent) ;;;
        callDom (animateGift currentEvent)
      else
        index <- getFirstNotAnimatedGiftEventIndex ;;
        if decide (index ≠ -1) then
          currentEvent <- splice1 (Z.to_nat index) ;;
          callDom (addMessage currentEvent)
        else ret tt
    else
      currentEvent <- shift ;;
      callDom (addMessage currentEvent).

End Draft3.

(** ** Notions used to state the properties *)

(** A message more than 20 seconds old, in milliseconds. *)
Definition expired (host : Host) (e : Event) : Prop :=
  type e = MESSAGE ∧ 20000 < now host - timestamp e.

#[global] Instance expired_dec host e : Decision (expired host e).
Proof. unfold expired. apply _. Defined.

(** The expired messages at the front of a queue, and what follows them. *)
Fixpoint expiredPrefix (host : Host) (q : list Event) : list Event :=
  match q with
  | [] => []
  | e :: q' => if decide (expired host e) then e :: expiredPrefix host q' else []
  end.

Fixpoint dropExpired (host : Host) (q : list Event) : list Event :=
  match q with
  | [] => []
  | e :: q' => if decide (expired host e) then dropExpired host q' else q
  end.

(** The first element of a list with a given id. *)
Fixpoint firstWithId (i : Z) (l : list Event) : option Event :=
  match l with
  | [] => None
  | e :: l' => if decide (id e = i) then Some e else firstWithId i l'
  end.

(** The elements of a list that are the first with their id, in order,
    leaving out the ids of [seen]. *)
Fixpoint firstOccurrences (seen : gset Z) (l : list Event) : list Event :=
  match l with
  | [] => []
  | e :: l' =>
      if decide (id e ∈ seen) then firstOccurrences seen l'
      else e :: firstOccurrences ({[ id e ]} ∪ seen) l'
  end.

(** A block in which the events of one id are all animated gifts or all
    not. *)
Definition sameKindPerId (events : list Event) : Prop :=
  ∀ x y, x ∈ events → y ∈ events → id x = id y →
    (type x = ANIMATED_GIFT ↔ type y = ANIMATED_GIFT).

(** The calls an emission consists of. *)
Inductive Emission : Set :=
  | NoEmission
  | Ordinary (e : Event)
  | Animated (e : Event).

Definition callsOf (em : Emission) : list DomCall :=
  match em with
  | NoEmission => []
  | Ordinary e => [addMessage (Some e)]
  | Animated e => [addMessage (Some e); animateGift (Some e)]
  end.

(** The first element that is not an animated gift, with its position. *)
Definition firstNotAnimatedGift (q : list Event) : option (nat * Event) :=
  list_find (λ e, type e ≠ ANIMATED_GIFT) q.

(** What a run of the drain callback emits, from the queue left by the
    expiry loop. *)
Definition emissionOf (host : Host) (pruned : list Event) : Emission :=
  match pruned with
  | [] => NoEmission
  | e :: _ =>
      if decide (type e = ANIMATED_GIFT) then
        if negb (isAnimatingGiftUI host) && negb (isPossiblyAnimatingGift host)
        then Animated e
        else match firstNotAnimatedGift pruned with
             | Some (_, e') => Ordinary e'
             | None => NoEmission
             end
      else Ordinary e
  end.

(** The number of events an emission takes out of the queue. *)
Definition emitted (em : Emission) : nat :=
  match em with NoEmission => 0 | _ => 1 end.

(** What a run of the drain callback leaves in the queue, from the queue
    left by the expiry loop. *)
Definition remainingAfter (host : Host) (pruned : list Event) : list Event :=
  match pruned with
  | [] => []
  | e :: rest =>
      if decide (type e = ANIMATED_GIFT) then
        if negb (isAnimatingGiftUI host) && negb (isPossiblyAnimatingGift host)
        then rest
        else match firstNotAnimatedGift pruned with
             | Some (i, _) => delete i pruned
             | None => pruned
             end
      else rest
  end.

(** Two completions agree when both are normal or both throw the same
    error; the returned values are not compared. *)
Definition sameCompletion {A B} (c1 : Completion A) (c2 : Completion B) : Prop :=
  match c1, c2 with
  | Return _, Return _ => True
  | Throw e1, Throw e2 => e1 = e2
  | _, _ => False
  end.

(** The running intervals are the one [globalInterval] holds, if any. *)
Definition timerConsistent (w : World) : Prop :=
  intervals w = match globalInterval w with
                | Some h => {[ h ]}
                | None => ∅
                end.

(** Sample data: the clock reads 25 s; [oldMessage] is 25 s old,
    [freshMessage] 5 s, [edgeMessage] exactly 20 s. *)
Definition oldMessage : Event := mkEvent 1 MESSAGE 0 "old".
Definition freshMessage : Event := mkEvent 2 MESSAGE 20000 "fresh".
Definition edgeMessage : Event := mkEvent 4 MESSAGE 5000 "edge".
Definition sampleGift : Event := mkEvent 3 ANIMATED_GIFT 0 "gift".
Definition hostIdle : Host := mkHost 25000 false false.
Definition hostPlaying : Host := mkHost 25000 true false.

(** A world with a given queue and one interval running. *)
Definition draining (q : list Event) : World :=
  {| eventQueue := q; globalInterval := Some 1%positive;
     intervals := {[ 1%positive ]}; nextHandle := 2%positive; domCalls := [] |}.

(** The ids of a list of events, as a set. *)
Definition idsOf (l : list Event) : gset Z := list_to_set (id <$> l).

(** ** Second draft *)

(** The second draft has no [globalInterval]: the interval is started once,
    when the module is loaded, and the drain callback never stops it.  Its
    expiry rule filters the whole queue. *)
Module Draft2.

(** The callback registered with [api.setEventHandler]. *)
Definition eventHandler (events : list Event) : JS unit :=
  if decide (0 < length events)%nat then
    push (sortEvents events) ;;;
    removeDuplicateEvents
  else ret tt.

(** The callback given to [filter]: it returns the event (kept) or
    [undefined] (left out). *)
Definition keepsEvent (host : Host) (event : Event) : bool :=
  if decide (type event = MESSAGE) then
    let differenceInMilliseconds := now host - timestamp event in
    let differenceInSeconds :=
      (inject_Z differenceInMilliseconds / inject_Z 1000)%Q in
    Qle_bool differenceInSeconds (inject_Z 20)
  else true.

Definition removeEventsWithTypeMessageOlderThan20Seconds (host : Host) : JS unit :=
  q <- getEventQueue ;;
  setEventQueue (filter (λ event, keepsEvent host event = true) q).

Definition checkEventQueueAndMakeNecessaryDomUpdate (host : Host) : JS unit :=
  q <- getEventQueue ;;
  if decide (length q ≤ 0)%nat then ret tt
  else
    removeEventsWithTypeMessageOlderThan20Seconds host ;;;
    t <- firstEventType ;;
    if decide (t = ANIMATED_GIFT) then
      if negb (isAnimatingGiftUI host) && negb (isPossiblyAnimatingGift host) then
        currentEvent <- shift ;;
        callDom (addMessage currentEvent) ;;;
        callDom (animateGift currentEvent)
      else
        index <- getFirstNotAnimatedGiftEventIndex ;;
        if decide (index ≠ -1) then
          currentEvent <- splice1 (Z.to_nat index) ;;
          callDom (addMessage currentEvent)
        else ret tt
    else
      currentEvent <- shift ;;
      callDom (addMessage currentEvent).

(** The module as loaded: empty queue, and the interval of the last
    statement, [setInterval(.., 500)], running. *)
Definition initial : World :=
  {| eventQueue := []; globalInterval := None; intervals := {[ 1%positive ]};
     nextHandle := 2%positive; domCalls := [] |}.

End Draft2.

(** ** More notions used to state the properties *)

(** The calls a computation adds to those already made. *)
Definition callsMade {A} (m : JS A) (w : World) : list DomCall :=
  drop (length (domCalls w)) (domCalls (exec m w)).

(** The event a call is about, if any. *)
Definition callArgument (c : DomCall) : option Event :=
  match c with addMessage arg => arg | animateGift arg => arg end.

(** An emission agrees with the type of its event: animated for an animated
    gift, ordinary for anything else. *)
Definition wellTyped (em : Emission) : Prop :=
  match em with
  | NoEmission => True
  | Ordinary e => type e ≠ ANIMATED_GIFT
  | Animated e => type e = ANIMATED_GIFT
  end.

(** No animation is reported, now or about to start. *)
Definition animationIdle (host : Host) : Prop :=
  isAnimatingGiftUI host = false ∧ isPossiblyAnimatingGift host = false.

(** The interval of the first draft firing once for each reading of the
    host, in turn, with no block of events in between. *)
Definition tickAll (hosts : list Host) (w : World) : World :=
  foldl (λ w host, exec (Draft1.checkEventQueueAndMakeNecessaryDomUpdate host) w)
    w hosts.

(** * Properties *)

Ltac js_unfold :=
  unfold exec, completion,
    Draft1.checkEventQueueAndMakeNecessaryDomUpdate,
    Draft3.checkEventQueueAndMakeNecessaryDomUpdate,
    Draft1.eventHandler, Draft1.stopGlobalInterval,
    Draft1.isFirstEventInQueueAnAnimatedGift,
    Draft1.processAnimatedGiftEvent, Draft1.processNormalEvent,
    Draft1.processFirstNotAnimatedGiftEvent,
    Draft1.isAnyAnimatingGiftNotPlaying in *;
  unfold push, shift, splice1, firstEventType, removeDuplicateEvents,
    getFirstNotAnimatedGiftEventIndex,
    ignoreFirstEventWithTypeMessageOlderThan20Seconds in *;
  unfold getEventQueue, setEventQueue, getGlobalInterval, setGlobalInterval,
    setInterval, clearInterval, callDom in *;
  unfold bind, ret, throw in *.

(** ** The clock test and the expiry loop *)

Section expiry.

Variable host : Host.

Lemma greaterThan20_spec ts :
  greaterThan20 (calculateTimeDifferenceInSecondsAccordingToNow host ts) = true
  ↔ 20000 < now host - ts.
Proof.
  unfold greaterThan20, calculateTimeDifferenceInSecondsAccordingToNow.
  rewrite negb_true_iff, <- not_true_iff_false, Qle_bool_iff.
  unfold Qle, Qdiv, Qmult, Qinv, inject_Z. simpl. lia.
Qed.

Lemma greaterThan20_expired e :
  type e = MESSAGE →
  greaterThan20 (calculateTimeDifferenceInSecondsAccordingToNow host (timestamp e))
  = bool_decide (expired host e).
Proof.
  intros Hm. apply eq_true_iff_eq.
  rewrite greaterThan20_spec, bool_decide_eq_true. unfold expired. tauto.
Qed.

Lemma ignoreLoop_queue q : (ignoreLoop host q).2 = dropExpired host q.
Proof.
  induction q as [|e q IH]; simpl; [done|].
  destruct (decide (type e = MESSAGE)) as [Hm|Hm].
  - rewrite (greaterThan20_expired _ Hm).
    destruct (decide (expired host e)) as [He|He].
    + by rewrite bool_decide_eq_true_2.
    + by rewrite bool_decide_eq_false_2.
  - destruct (decide (expired host e)) as [[He _]|He]; done.
Qed.

Lemma ignoreLoop_completion q :
  (ignoreLoop host q).1
  = match dropExpired host q with [] => Throw TypeError | _ :: _ => Return tt end.
Proof.
  induction q as [|e q IH]; simpl; [done|].
  destruct (decide (type e = MESSAGE)) as [Hm|Hm].
  - rewrite (greaterThan20_expired _ Hm).
    destruct (decide (expired host e)) as [He|He].
    + by rewrite bool_decide_eq_true_2.
    + by rewrite bool_decide_eq_false_2.
  - destruct (decide (expired host e)) as [[He _]|He]; done.
Qed.

Lemma expiredPrefix_dropExpired q :
  expiredPrefix host q ++ dropExpired host q = q.
Proof.
  induction q as [|e q IH]; simpl; [done|].
  destruct (decide (expired host e)); simpl; congruence.
Qed.

Lemma expiredPrefix_Forall q : Forall (expired host) (expiredPrefix host q).
Proof.
  induction q as [|e q IH]; simpl; [constructor|].
  destruct (decide (expired host e)); by constructor.
Qed.

Lemma dropExpired_head q e rest :
  dropExpired host q = e :: rest → ¬ expired host e.
Proof.
  induction q as [|x q IH]; simpl; [done|].
  destruct (decide (expired host x)); [done|]. by intros [= -> ->].
Qed.

Lemma dropExpired_all q : Forall (expired host) q → dropExpired host q = [].
Proof.
  induction 1 as [|e q He _ IH]; simpl; [done|]. by rewrite decide_True.
Qed.

Lemma dropExpired_not_expired e q :
  ¬ expired host e → dropExpired host (e :: q) = e :: q.
Proof. intros He. simpl. by rewrite decide_False. Qed.

(** The split of a queue into expired front messages and the rest is the
    only one: the loop removes neither fewer nor more. *)
Lemma dropExpired_unique removed kept :
  Forall (expired host) removed →
  match kept with [] => True | e :: _ => ¬ expired host e end →
  dropExpired host (removed ++ kept) = kept.
Proof.
  induction 1 as [|e q He _ IH]; simpl; intros Hk.
  - destruct kept as [|e kept]; simpl; [done|]. by rewrite decide_False.
  - rewrite decide_True by done. by apply IH.
Qed.

Lemma ignoreFirst_exec w :
  exec (ignoreFirstEventWithTypeMessageOlderThan20Seconds host) w
  = exec (setEventQueue (dropExpired host (eventQueue w))) w.
Proof.
  js_unfold. simpl. rewrite ignoreLoop_queue.
  by destruct (ignoreLoop host (eventQueue w)).1.
Qed.

Lemma ignoreFirst_completion w :
  completion (ignoreFirstEventWithTypeMessageOlderThan20Seconds host) w
  = match dropExpired host (eventQueue w) with
    | [] => Throw TypeError
    | _ :: _ => Return tt
    end.
Proof.
  js_unfold. simpl. rewrite ignoreLoop_completion.
  by destruct (dropExpired host (eventQueue w)).
Qed.

End expiry.

(** ** The drain callback, run by run *)

Lemma firstNotAnimatedGiftFrom_spec i q :
  firstNotAnimatedGiftFrom i q
  = match firstNotAnimatedGift q with
    | Some (k, _) => i + Z.of_nat k
    | None => -1
    end.
Proof.
  unfold firstNotAnimatedGift. revert i.
  induction q as [|e q IH]; intros i; simpl; [done|].
  destruct (decide (type e ≠ ANIMATED_GIFT)); [lia|].
  rewrite IH. destruct (list_find _ q) as [[k x]|]; simpl; lia.
Qed.

Lemma firstNotAnimatedGift_Some q i e :
  firstNotAnimatedGift q = Some (i, e) ↔
  q !! i = Some e ∧ type e ≠ ANIMATED_GIFT ∧
  ∀ j y, q !! j = Some y → (j < i)%nat → type y = ANIMATED_GIFT.
Proof.
  unfold firstNotAnimatedGift. rewrite list_find_Some.
  split; intros (Hi & He & Hb); repeat split; try done.
  - intros j y Hj Hlt. destruct (decide (type y = ANIMATED_GIFT)); [done|].
    by destruct (Hb j y Hj Hlt).
  - intros j y Hj Hlt Hy. by apply Hy, (Hb j y).
Qed.

Lemma firstNotAnimatedGift_None q :
  firstNotAnimatedGift q = None ↔ Forall (λ e, type e = ANIMATED_GIFT) q.
Proof.
  unfold firstNotAnimatedGift. rewrite list_find_None.
  apply Forall_proper; [|done]. intros e.
  destruct (decide (type e = ANIMATED_GIFT)); naive_solver.
Qed.

Opaque firstNotAnimatedGiftFrom firstNotAnimatedGift.

(** One run of the callback of the first draft on a queue that is not
    empty: the expiry loop, then at most one emission. *)
Lemma tick_nonempty host w :
  eventQueue w ≠ [] →
  Draft1.checkEventQueueAndMakeNecessaryDomUpdate host w
  = (match dropExpired host (eventQueue w) with
     | [] => Throw TypeError
     | _ :: _ => Return true
     end,
     {| eventQueue := remainingAfter host (dropExpired host (eventQueue w));
        globalInterval := globalInterval w;
        intervals := intervals w;
        nextHandle := nextHandle w;
        domCalls :=
          domCalls w ++ callsOf (emissionOf host (dropExpired host (eventQueue w))) |}).
Proof.
  intros Hne. js_unfold. simpl.
  destruct (decide (length (eventQueue w) ≤ 0)%nat) as [Hl|_].
  { destruct (eventQueue w); [done|simpl in Hl; lia]. }
  rewrite ignoreLoop_queue, ignoreLoop_completion.
  unfold remainingAfter, emissionOf.
  destruct (dropExpired host (eventQueue w)) as [|e rest]; simpl.
  { by rewrite app_nil_r. }
  destruct (decide (type e = ANIMATED_GIFT)) as [Hg|Hg];
    [rewrite (bool_decide_eq_true_2 _ Hg)|rewrite (bool_decide_eq_false_2 _ Hg)];
    simpl.
  - destruct (negb (isAnimatingGiftUI host) && negb (isPossiblyAnimatingGift host));
      simpl.
    + by rewrite <- app_assoc.
    + rewrite firstNotAnimatedGiftFrom_spec.
      destruct (firstNotAnimatedGift (e :: rest)) as [[k x]|] eqn:Hf; simpl.
      * apply firstNotAnimatedGift_Some in Hf as (Hk & _ & _).
        destruct (decide (0 + Z.of_nat k ≠ -1)); [simpl|lia].
        replace (Z.to_nat (0 + Z.of_nat k)) with k by lia. by rewrite Hk.
      * destruct (decide (-1 ≠ -1)); [done|]. by rewrite app_nil_r.
  - done.
Qed.

Transparent firstNotAnimatedGiftFrom firstNotAnimatedGift.

Lemma tick_empty host w :
  eventQueue w = [] →
  Draft1.checkEventQueueAndMakeNecessaryDomUpdate host w
  = (Return false,
     {| eventQueue := [];
        globalInterval := None;
        intervals := match globalInterval w with
                     | Some i => intervals w ∖ {[ i ]}
                     | None => intervals w
                     end;
        nextHandle := nextHandle w;
        domCalls := domCalls w |}).
Proof. intros Hq. js_unfold. rewrite Hq. simpl. by rewrite Hq. Qed.

Lemma tick_queue host w :
  eventQueue (exec (Draft1.checkEventQueueAndMakeNecessaryDomUpdate host) w)
  = remainingAfter host (dropExpired host (eventQueue w)).
Proof.
  unfold exec. destruct (eventQueue w) as [|e q] eqn:Hq.
  - by rewrite tick_empty.
  - rewrite tick_nonempty by (by rewrite Hq). simpl. by rewrite Hq.
Qed.

Lemma tick_domCalls host w :
  domCalls (exec (Draft1.checkEventQueueAndMakeNecessaryDomUpdate host) w)
  = domCalls w ++ callsOf (emissionOf host (dropExpired host (eventQueue w))).
Proof.
  unfold exec. destruct (eventQueue w) as [|e q] eqn:Hq.
  - rewrite tick_empty by done. simpl. by rewrite app_nil_r.
  - rewrite tick_nonempty by (by rewrite Hq). simpl. by rewrite Hq.
Qed.

Lemma remainingAfter_length host pruned :
  length pruned
  = (emitted (emissionOf host pruned) + length (remainingAfter host pruned))%nat.
Proof.
  unfold remainingAfter, emissionOf. destruct pruned as [|e rest]; [done|].
  destruct (decide (type e = ANIMATED_GIFT)); [|simpl; lia].
  destruct (negb _ && negb _); [simpl; lia|].
  destruct (firstNotAnimatedGift (e :: rest)) as [[k x]|] eqn:Hf; [|simpl; lia].
  apply firstNotAnimatedGift_Some in Hf as (Hk & _ & _).
  rewrite length_delete by eauto.
  apply lookup_lt_Some in Hk. simpl in *. lia.
Qed.

(** ** Removing duplicates *)

Lemma Array_from_Set_from acc (l : list Event) :
  foldl Set_add acc (id <$> l)
  = acc ++ (id <$> firstOccurrences (list_to_set acc) l).
Proof.
  revert acc. induction l as [|e l IH]; intros acc; simpl.
  { by rewrite app_nil_r. }
  unfold Set_add at 2.
  destruct (decide (id e ∈ acc)) as [Hin|Hin].
  - rewrite decide_True by (by apply elem_of_list_to_set). apply IH.
  - rewrite decide_False by (by rewrite elem_of_list_to_set).
    rewrite IH, list_to_set_snoc_L, <- app_assoc. simpl.
    by rewrite (comm_L (∪) _ {[ id e ]}).
Qed.

Lemma Array_from_Set_spec (l : list Event) :
  Array_from_Set (id <$> l) = id <$> firstOccurrences ∅ l.
Proof. unfold Array_from_Set. by rewrite Array_from_Set_from. Qed.

Lemma find_by_id_firstWithId q i : find_by_id q i = firstWithId i q.
Proof.
  unfold find_by_id. induction q as [|e q IH]; simpl; [done|].
  destruct (decide (id e = i)); [done|].
  rewrite <- IH. by destruct (list_find _ q) as [[k x]|].
Qed.

Lemma firstWithId_Some i l e :
  firstWithId i l = Some e → e ∈ l ∧ id e = i.
Proof.
  induction l as [|x l IH]; simpl; [done|].
  destruct (decide (id x = i)).
  - intros [= ->]. split; [left|done].
  - intros H. destruct (IH H). split; [by right|done].
Qed.

Lemma firstWithId_None i l : firstWithId i l = None ↔ i ∉ id <$> l.
Proof.
  induction l as [|x l IH]; simpl.
  - split; [intros _; apply not_elem_of_nil|done].
  - rewrite not_elem_of_cons. destruct (decide (id x = i)) as [Heq|Hne].
    + split; [done|]. intros [Hi _]. by destruct Hi.
    + rewrite IH. split; [intros Hi; split; [congruence|done]|by intros [_ Hi]].
Qed.

Lemma firstWithId_lookup i l e :
  firstWithId i l = Some e ↔
  ∃ k, l !! k = Some e ∧ id e = i ∧
    ∀ j y, l !! j = Some y → (j < k)%nat → id y ≠ i.
Proof.
  rewrite <- find_by_id_firstWithId. unfold find_by_id. split.
  - destruct (list_find _ l) as [[k x]|] eqn:Hf; [|done]. simpl.
    intros [= ->]. apply list_find_Some in Hf as (Hk & Hi & Hbefore).
    by exists k.
  - intros (k & Hk & Hi & Hbefore).
    assert (list_find (λ item, id item = i) l = Some (k, e)) as ->; [|done].
    by apply list_find_Some.
Qed.

Lemma firstWithId_app i l1 l2 :
  firstWithId i (l1 ++ l2)
  = match firstWithId i l1 with
    | Some e => Some e
    | None => firstWithId i l2
    end.
Proof.
  induction l1 as [|x l1 IH]; simpl; [done|].
  by destruct (decide (id x = i)).
Qed.

Lemma firstOccurrences_firstWithId seen l e :
  e ∈ firstOccurrences seen l → (id e ∉ seen) ∧ firstWithId (id e) l = Some e.
Proof.
  revert seen. induction l as [|x l IH]; intros seen; simpl.
  { intros H. by apply elem_of_nil in H. }
  destruct (decide (id x ∈ seen)) as [Hx|Hx]; intros Hin.
  - apply IH in Hin as [Hs Hf]. split; [done|].
    rewrite decide_False; [done|]. congruence.
  - apply elem_of_cons in Hin as [->|Hin].
    + split; [done|]. by rewrite decide_True.
    + apply IH in Hin as [Hs Hf]. split; [set_solver|].
      rewrite decide_False; [done|]. set_solver.
Qed.

Lemma firstWithId_firstOccurrences seen l e :
  firstWithId (id e) l = Some e → id e ∉ seen → e ∈ firstOccurrences seen l.
Proof.
  revert seen. induction l as [|x l IH]; intros seen; simpl; [done|].
  destruct (decide (id x = id e)) as [Heq|Hne].
  - intros [= ->] Hs. rewrite decide_False by done. left.
  - intros Hf Hs. destruct (decide (id x ∈ seen)).
    + by apply IH.
    + right. apply IH; [done|]. set_solver.
Qed.

Lemma removeDuplicateEvents_slots_spec q :
  removeDuplicateEvents_slots q = Some <$> firstOccurrences ∅ q.
Proof.
  unfold removeDuplicateEvents_slots.
  rewrite Array_from_Set_spec, <- list_fmap_compose.
  apply list_fmap_ext. intros k e Hk. simpl.
  rewrite find_by_id_firstWithId.
  by apply (firstOccurrences_firstWithId ∅), list_elem_of_lookup_2 with k.
Qed.

(** The [find] of [removeDuplicateEvents] always finds. *)
Lemma removeDuplicateEvents_slots_defined q :
  Forall is_Some (removeDuplicateEvents_slots q).
Proof.
  rewrite removeDuplicateEvents_slots_spec, Forall_fmap.
  apply Forall_true. intros e. by exists e.
Qed.

Lemma omap_defined {A} (slots : list (option A)) :
  Forall is_Some slots → Some <$> omap (λ slot, slot) slots = slots.
Proof.
  induction 1 as [|slot l [e ->] _ IH]; simpl; [done|]. f_equal. exact IH.
Qed.

Lemma removeDuplicateEvents_array_slots q :
  Some <$> removeDuplicateEvents_array q = removeDuplicateEvents_slots q.
Proof. apply omap_defined, removeDuplicateEvents_slots_defined. Qed.

Lemma removeDuplicateEvents_array_spec q :
  removeDuplicateEvents_array q = firstOccurrences ∅ q.
Proof.
  apply (inj (fmap Some)).
  by rewrite removeDuplicateEvents_array_slots, removeDuplicateEvents_slots_spec.
Qed.

Lemma firstOccurrences_sublist seen l : firstOccurrences seen l `sublist_of` l.
Proof.
  revert seen. induction l as [|x l IH]; intros seen; simpl; [done|].
  destruct (decide (id x ∈ seen)); [by apply sublist_cons|by apply sublist_skip].
Qed.

Lemma firstOccurrences_ids seen l :
  idsOf (firstOccurrences seen l) = idsOf l ∖ seen.
Proof.
  unfold idsOf. revert seen. induction l as [|x l IH]; intros seen.
  { simpl. set_solver. }
  cbn [firstOccurrences]. rewrite fmap_cons, list_to_set_cons.
  destruct (decide (id x ∈ seen)); [|rewrite fmap_cons, list_to_set_cons];
    rewrite IH; clear IH; [set_solver|].
  apply set_eq. intros y. set_unfold.
  destruct (decide (y = id x)); naive_solver.
Qed.

Lemma firstOccurrences_NoDup seen l : NoDup (id <$> firstOccurrences seen l).
Proof.
  revert seen. induction l as [|x l IH]; intros seen; simpl; [constructor|].
  destruct (decide (id x ∈ seen)); [apply IH|]. simpl.
  constructor; [|apply IH].
  intros Hin. assert (id x ∈ idsOf (firstOccurrences ({[id x]} ∪ seen) l)) as H
    by (by apply elem_of_list_to_set).
  rewrite firstOccurrences_ids in H. set_solver.
Qed.

Lemma firstOccurrences_app seen l1 l2 :
  firstOccurrences seen (l1 ++ l2)
  = firstOccurrences seen l1 ++ firstOccurrences (idsOf l1 ∪ seen) l2.
Proof.
  unfold idsOf. revert seen. induction l1 as [|x l1 IH]; intros seen.
  { simpl. f_equal. set_solver. }
  rewrite <- app_comm_cons. cbn [firstOccurrences].
  rewrite fmap_cons, list_to_set_cons.
  destruct (decide (id x ∈ seen)); rewrite IH; clear IH.
  - do 2 f_equal. set_solver.
  - rewrite <- app_comm_cons. do 3 f_equal. set_solver.
Qed.

(** A list without two elements of the same id, none of them seen, is
    left as it is. *)
Lemma firstOccurrences_NoDup_id seen l :
  NoDup (id <$> l) → idsOf l ## seen → firstOccurrences seen l = l.
Proof.
  unfold idsOf. revert seen. induction l as [|x l IH]; intros seen; [done|].
  rewrite fmap_cons, list_to_set_cons. cbn [firstOccurrences].
  intros [Hx Hl]%NoDup_cons Hd.
  rewrite decide_False by set_solver. f_equal. apply IH; [done|].
  assert (id x ∉ (list_to_set (id <$> l) : gset Z))
    by (by rewrite elem_of_list_to_set).
  clear IH. set_solver.
Qed.

Lemma firstOccurrences_seen_ids seen l1 l2 :
  firstOccurrences (idsOf (firstOccurrences seen l1) ∪ seen) l2
  = firstOccurrences (idsOf l1 ∪ seen) l2.
Proof.
  rewrite firstOccurrences_ids. f_equal.
  apply set_eq. intros y. rewrite !elem_of_union, elem_of_difference.
  destruct (decide (y ∈ seen)); tauto.
Qed.

(** ** The handler, call by call *)

Lemma eventHandler_empty w : Draft1.eventHandler [] w = (Return tt, w).
Proof. done. Qed.

Lemma eventHandler_nonempty events w :
  (0 < length events)%nat →
  Draft1.eventHandler events w
  = (Return tt,
     {| eventQueue := firstOccurrences ∅ (eventQueue w ++ sortEvents events);
        globalInterval := Some (default (nextHandle w) (globalInterval w));
        intervals := match globalInterval w with
                     | Some _ => intervals w
                     | None => {[ nextHandle w ]} ∪ intervals w
                     end;
        nextHandle := match globalInterval w with
                      | Some _ => nextHandle w
                      | None => Pos.succ (nextHandle w)
                      end;
        domCalls := domCalls w |}).
Proof.
  intros Hlen. unfold Draft1.eventHandler. rewrite decide_True by done.
  js_unfold. simpl. rewrite removeDuplicateEvents_array_spec.
  by destruct (globalInterval w).
Qed.

Lemma eventHandler_queue events w :
  eventQueue (exec (Draft1.eventHandler events) w)
  = match events with
    | [] => eventQueue w
    | _ :: _ => firstOccurrences ∅ (eventQueue w ++ sortEvents events)
    end.
Proof.
  destruct events as [|e events]; [done|].
  unfold exec. rewrite eventHandler_nonempty by (simpl; lia). done.
Qed.

Lemma eventHandler_queue_NoDup events w :
  NoDup (id <$> eventQueue w) →
  eventQueue (exec (Draft1.eventHandler events) w)
  = firstOccurrences ∅ (eventQueue w ++ sortEvents events).
Proof.
  intros Hnd. rewrite eventHandler_queue. destruct events as [|e events]; [|done].
  unfold sortEvents. simpl. rewrite app_nil_r.
  symmetry. apply firstOccurrences_NoDup_id; [done|set_solver].
Qed.

Lemma firstOccurrences_idemp l1 l2 :
  firstOccurrences ∅ (firstOccurrences ∅ l1 ++ l2) = firstOccurrences ∅ (l1 ++ l2).
Proof.
  rewrite !firstOccurrences_app, firstOccurrences_seen_ids. f_equal.
  apply firstOccurrences_NoDup_id; [apply firstOccurrences_NoDup|set_solver].
Qed.

Lemma handleAll_queue batches w :
  NoDup (id <$> eventQueue w) →
  eventQueue (Draft1.handleAll batches w)
  = firstOccurrences ∅ (eventQueue w ++ concat (sortEvents <$> batches)).
Proof.
  unfold Draft1.handleAll. revert w.
  induction batches as [|events batches IH]; intros w Hnd; simpl.
  - rewrite app_nil_r. symmetry.
    apply firstOccurrences_NoDup_id; [done|set_solver].
  - rewrite IH; rewrite eventHandler_queue_NoDup by done.
    + by rewrite firstOccurrences_idemp, app_assoc.
    + apply firstOccurrences_NoDup.
Qed.

(** ** Reordering a block *)

Lemma sortEvents_ids events : idsOf (sortEvents events) = idsOf events.
Proof.
  unfold idsOf, sortEvents.
  apply list_to_set_perm_L, fmap_Permutation, filter_app_complement.
Qed.

Lemma sortEvents_length events : length (sortEvents events) = length events.
Proof.
  unfold sortEvents. apply Permutation_length, filter_app_complement.
Qed.

(** ** What holds in every reachable world *)

Lemma remainingAfter_sublist host pruned :
  remainingAfter host pruned `sublist_of` pruned.
Proof.
  unfold remainingAfter. destruct pruned as [|e rest]; [done|].
  destruct (decide _); [|by apply sublist_cons].
  destruct (negb _ && negb _); [by apply sublist_cons|].
  destruct (firstNotAnimatedGift _) as [[k x]|]; [apply sublist_delete|done].
Qed.

Lemma dropExpired_sublist host q : dropExpired host q `sublist_of` q.
Proof.
  rewrite <- (expiredPrefix_dropExpired host q) at 2. by apply sublist_inserts_l.
Qed.

Lemma step_invariant w w' :
  Draft1.step w w' →
  NoDup (id <$> eventQueue w) ∧ timerConsistent w →
  NoDup (id <$> eventQueue w') ∧ timerConsistent w'.
Proof.
  unfold timerConsistent. intros [events w0|host h w0 Hh] [Hnd Ht].
  - split.
    + rewrite eventHandler_queue_NoDup by done. apply firstOccurrences_NoDup.
    + destruct events as [|e events]; [done|].
      unfold exec. rewrite eventHandler_nonempty by (simpl; lia). simpl.
      destruct (globalInterval w0); simpl; [done|]. rewrite Ht. set_solver.
  - split.
    + rewrite tick_queue. eapply sublist_NoDup; [exact Hnd|].
      apply fmap_sublist. etrans; [apply remainingAfter_sublist|].
      apply dropExpired_sublist.
    + unfold exec. destruct (eventQueue w0) as [|e q] eqn:Hq.
      * rewrite tick_empty by done. simpl.
        destruct (globalInterval w0); rewrite Ht; set_solver.
      * rewrite tick_nonempty by (by rewrite Hq). done.
Qed.

Lemma reachable_invariant w :
  Draft1.reachable w → NoDup (id <$> eventQueue w) ∧ timerConsistent w.
Proof.
  unfold Draft1.reachable. revert w. apply rtc_ind_r.
  - split; [constructor|done].
  - intros w1 w2 _ Hs IH. by eapply step_invariant.
Qed.

(** ** Scenarios *)

(** One fresh message: it is displayed by the first run, and the second
    run finds the queue empty and stops the interval. *)
Example scenario_single_message :
  let w1 := exec (Draft1.eventHandler [freshMessage]) Draft1.initial in
  let w2 := exec (Draft1.checkEventQueueAndMakeNecessaryDomUpdate hostIdle) w1 in
  let w3 := exec (Draft1.checkEventQueueAndMakeNecessaryDomUpdate hostIdle) w2 in
  domCalls w2 = [addMessage (Some freshMessage)]
  ∧ eventQueue w2 = []
  ∧ globalInterval w2 = Some 1%positive
  ∧ globalInterval w3 = None
  ∧ domCalls w3 = domCalls w2.
Proof. by vm_compute. Qed.

(** A block with a message before an animated gift: the gift is queued
    first and, with no animation going on, emitted as animated. *)
Example scenario_gift_first :
  let w1 := exec (Draft1.eventHandler [freshMessage; sampleGift]) Draft1.initial in
  let w2 := exec (Draft1.checkEventQueueAndMakeNecessaryDomUpdate hostIdle) w1 in
  eventQueue w1 = [sampleGift; freshMessage]
  ∧ domCalls w2 = [addMessage (Some sampleGift); animateGift (Some sampleGift)]
  ∧ eventQueue w2 = [freshMessage].
Proof. by vm_compute. Qed.

(** An animated gift, then a message in a later block, while an animation
    is playing: the message is emitted and the gift waits. *)
Example scenario_gift_waits :
  let w1 := exec (Draft1.eventHandler [sampleGift]) Draft1.initial in
  let w2 := exec (Draft1.eventHandler [freshMessage]) w1 in
  let w3 := exec (Draft1.checkEventQueueAndMakeNecessaryDomUpdate hostPlaying) w2 in
  eventQueue w2 = [sampleGift; freshMessage]
  ∧ domCalls w3 = [addMessage (Some freshMessage)]
  ∧ eventQueue w3 = [sampleGift].
Proof. by vm_compute. Qed.

(** The same id in two blocks: the first payload stays. *)
Example scenario_duplicate_id :
  eventQueue
    (Draft1.handleAll [[oldMessage]; [mkEvent 1 MESSAGE 9 "again"]] Draft1.initial)
  = [oldMessage].
Proof. by vm_compute. Qed.

(** A message exactly 20 s old is displayed, not dropped. *)
Example scenario_exactly_20_seconds :
  let w := exec (Draft1.checkEventQueueAndMakeNecessaryDomUpdate hostIdle)
             (draining [edgeMessage]) in
  now hostIdle - timestamp edgeMessage = 20000
  ∧ domCalls w = [addMessage (Some edgeMessage)].
Proof. by vm_compute. Qed.

(** ** The two drafts of the drain callback *)

(** C10: the drain callback of the first draft and the one of the third
    draft leave the same world (queue, interval, calls to the DOM) and
    complete the same way, for every world, clock reading and animation
    flags. *)
Theorem drafts_agree (host : Host) (w : World) :
  exec (Draft1.checkEventQueueAndMakeNecessaryDomUpdate host) w
  = exec (Draft3.checkEventQueueAndMakeNecessaryDomUpdate host) w
  ∧ sameCompletion
      (completion (Draft1.checkEventQueueAndMakeNecessaryDomUpdate host) w)
      (completion (Draft3.checkEventQueueAndMakeNecessaryDomUpdate host) w).
Proof.
  js_unfold. simpl.
  destruct (decide (length (eventQueue w) ≤ 0)%nat); simpl; [done|].
  destruct (ignoreLoop host (eventQueue w)) as [[[]|err] pruned]; simpl; [|done].
  destruct pruned as [|e rest]; simpl; [done|].
  destruct (decide (type e = ANIMATED_GIFT)) as [Hg|Hg];
    [rewrite (bool_decide_eq_true_2 _ Hg)|rewrite (bool_decide_eq_false_2 _ Hg)];
    simpl; [|done].
  destruct (negb (isAnimatingGiftUI host) && negb (isPossiblyAnimatingGift host));
    simpl; [done|].
  destruct (decide _); done.
Qed.

(** ** An empty block *)

(** C9: the handler called with an empty block returns at once and leaves
    the world as it was: same queue, same [globalInterval], same running
    intervals, no call to the DOM. *)
Theorem empty_batch_noop (w : World) :
  Draft1.eventHandler [] w = (Return tt, w).
Proof. reflexivity. Qed.

(** ** A queue of expired messages only *)

(** When the expiry loop removes every element, its next test reads
    [eventQueue[0].type] on the empty queue: the drain callback throws. *)
Lemma all_expired_throws host w :
  eventQueue w ≠ [] →
  Forall (expired host) (eventQueue w) →
  Draft1.checkEventQueueAndMakeNecessaryDomUpdate host w
  = (Throw TypeError,
     {| eventQueue := []; globalInterval := globalInterval w;
        intervals := intervals w; nextHandle := nextHandle w;
        domCalls := domCalls w |}).
Proof.
  intros Hne Hall. rewrite tick_nonempty by done.
  rewrite dropExpired_all by done. simpl. by rewrite app_nil_r.
Qed.

(** C1: the handler receives one message and the interval fires 25 s
    later.  The message is dropped and no call is made to the DOM, but the
    callback does not return: it throws a [TypeError], and the interval is
    still running. *)
Theorem expired_only_queue_throws :
  let w := exec (Draft1.eventHandler [oldMessage]) Draft1.initial in
  let w' := exec (Draft1.checkEventQueueAndMakeNecessaryDomUpdate hostIdle) w in
  eventQueue w = [oldMessage]
  ∧ completion (Draft1.checkEventQueueAndMakeNecessaryDomUpdate hostIdle) w
    = Throw TypeError
  ∧ eventQueue w' = []
  ∧ domCalls w' = []
  ∧ globalInterval w' = Some 1%positive
  ∧ intervals w' = {[ 1%positive ]}.
Proof. vm_compute. repeat split. Qed.

(** ** Calls made by one run *)

Lemma processAnimatedGiftEvent_run w e q :
  eventQueue w = e :: q →
  Draft1.processAnimatedGiftEvent w
  = (Return tt,
     {| eventQueue := q; globalInterval := globalInterval w;
        intervals := intervals w; nextHandle := nextHandle w;
        domCalls := domCalls w ++ [addMessage (Some e); animateGift (Some e)] |}).
Proof. intros Hq. js_unfold. rewrite Hq. simpl. by rewrite <- app_assoc. Qed.

Lemma processNormalEvent_run w e q :
  eventQueue w = e :: q →
  Draft1.processNormalEvent w
  = (Return tt,
     {| eventQueue := q; globalInterval := globalInterval w;
        intervals := intervals w; nextHandle := nextHandle w;
        domCalls := domCalls w ++ [addMessage (Some e)] |}).
Proof. intros Hq. js_unfold. by rewrite Hq. Qed.

(** C7: the calls one run of the drain callback adds are those of its
    emission: none, [addMessage(event)] alone for an ordinary emission,
    [addMessage(event)] then [animateGift(event)] for an animated one. *)
Theorem emission_calls (host : Host) (w : World) :
  let w' := exec (Draft1.checkEventQueueAndMakeNecessaryDomUpdate host) w in
  let em := emissionOf host (dropExpired host (eventQueue w)) in
  ∃ new, domCalls w' = domCalls w ++ new ∧
    match em with
    | NoEmission => new = []
    | Ordinary e => new = [addMessage (Some e)]
    | Animated e => new = [addMessage (Some e); animateGift (Some e)]
    end.
Proof.
  intros w' em. exists (callsOf em). split; [apply tick_domCalls|].
  by destruct em.
Qed.

(** ** Events removed by one run *)

(** C3, as stated, fails: with an expired message in front of a fresh one,
    one run removes both. *)
Lemma two_removed_in_one_tick :
  let w := draining [oldMessage; freshMessage] in
  let w' := exec (Draft1.checkEventQueueAndMakeNecessaryDomUpdate hostIdle) w in
  length (eventQueue w) = 2%nat ∧ length (eventQueue w') = 0%nat ∧
  domCalls w' = [addMessage (Some freshMessage)] ∧
  ¬ (length (eventQueue w) ≤ length (eventQueue w') + 1)%nat.
Proof.
  intros w w'. assert (eventQueue w' = []) as -> by (by vm_compute).
  split; [done|]. split; [done|]. split; [by vm_compute|]. simpl. lia.
Qed.

(** C3, amended: one run emits at most one event; the queue loses the
    expired messages at its front, and the emitted event if there is
    one. *)
Theorem one_emission_per_tick (host : Host) (w : World) :
  let w' := exec (Draft1.checkEventQueueAndMakeNecessaryDomUpdate host) w in
  let dropped := expiredPrefix host (eventQueue w) in
  let em := emissionOf host (dropExpired host (eventQueue w)) in
  domCalls w' = domCalls w ++ callsOf em
  ∧ (emitted em ≤ 1)%nat
  ∧ Forall (expired host) dropped
  ∧ length (eventQueue w)
    = (length dropped + emitted em + length (eventQueue w'))%nat.
Proof.
  intros w' dropped em. repeat split.
  - apply tick_domCalls.
  - by destruct em; simpl; lia.
  - apply expiredPrefix_Forall.
  - unfold w', dropped, em. rewrite tick_queue.
    pose proof (remainingAfter_length host (dropExpired host (eventQueue w))).
    rewrite <- (expiredPrefix_dropExpired host (eventQueue w)) at 1.
    rewrite length_app. lia.
Qed.

(** ** An animated gift at the front *)

Lemma idle_flags host :
  negb (isAnimatingGiftUI host) && negb (isPossiblyAnimatingGift host) = true
  ↔ isAnimatingGiftUI host = false ∧ isPossiblyAnimatingGift host = false.
Proof. destruct (isAnimatingGiftUI host), (isPossiblyAnimatingGift host); naive_solver. Qed.

(** C4: when the expiry loop leaves an animated gift [g] at the front, the
    run removes [g] and emits it as animated exactly when both animation
    flags are false; otherwise it removes the first element that is not an
    animated gift from its place and emits it as ordinary, [g] staying at
    the front, and does nothing when every element is an animated gift. *)
Theorem animation_gating (host : Host) (w : World) (g : Event) (rest : list Event) :
  dropExpired host (eventQueue w) = g :: rest →
  type g = ANIMATED_GIFT →
  let w' := exec (Draft1.checkEventQueueAndMakeNecessaryDomUpdate host) w in
  let idle := isAnimatingGiftUI host = false ∧ isPossiblyAnimatingGift host = false in
  (idle →
     eventQueue w' = rest ∧
     domCalls w' = domCalls w ++ [addMessage (Some g); animateGift (Some g)])
  ∧ (¬ idle → ∀ i e,
       (g :: rest) !! i = Some e →
       type e ≠ ANIMATED_GIFT →
       (∀ j y, (g :: rest) !! j = Some y → (j < i)%nat → type y = ANIMATED_GIFT) →
       eventQueue w' = delete i (g :: rest) ∧
       head (eventQueue w') = Some g ∧
       domCalls w' = domCalls w ++ [addMessage (Some e)])
  ∧ (¬ idle → Forall (λ e, type e = ANIMATED_GIFT) (g :: rest) →
       eventQueue w' = g :: rest ∧ domCalls w' = domCalls w)
  ∧ (idle ↔
       domCalls w' = domCalls w ++ [addMessage (Some g); animateGift (Some g)])
  ∧ completion (Draft1.checkEventQueueAndMakeNecessaryDomUpdate host) w
    = Return true.
Proof.
  intros Hp Hg w' idle.
  assert (eventQueue w ≠ []) as Hne by (by intros Hq; rewrite Hq in Hp).
  assert (eventQueue w' = remainingAfter host (g :: rest)) as Hq'
    by (unfold w'; by rewrite tick_queue, Hp).
  assert (domCalls w' = domCalls w ++ callsOf (emissionOf host (g :: rest))) as Hc'
    by (unfold w'; by rewrite tick_domCalls, Hp).
  unfold remainingAfter in Hq'. unfold emissionOf in Hc'.
  destruct (decide (type g = ANIMATED_GIFT)) as [_|?]; [|done].
  destruct (negb (isAnimatingGiftUI host) && negb (isPossiblyAnimatingGift host))
    eqn:Hidle.
  - apply idle_flags in Hidle.
    split; [done|]. split; [by intros []|]. split; [by intros []|].
    split; [done|].
    unfold completion. rewrite tick_nonempty by done. by rewrite Hp.
  - assert (¬ idle) as Hbusy.
    { intros Hi. apply idle_flags in Hi. congruence. }
    split; [done|]. split; [|split; [|split]].
    + intros _ i e Hi He Hbefore.
      assert (firstNotAnimatedGift (g :: rest) = Some (i, e)) as Hf
        by (by apply firstNotAnimatedGift_Some).
      rewrite Hf in Hq', Hc'. rewrite Hq', Hc'. repeat split.
      destruct i as [|i]; [|done]. simpl in Hi. congruence.
    + intros _ Hall. apply firstNotAnimatedGift_None in Hall.
      rewrite Hall in Hq', Hc'. rewrite Hq', Hc'. simpl. by rewrite app_nil_r.
    + split; [done|]. intros Heq. rewrite Hc' in Heq.
      apply app_inv_head in Heq.
      by destruct (firstNotAnimatedGift (g :: rest)) as [[k x]|].
    + unfold completion. rewrite tick_nonempty by done. by rewrite Hp.
Qed.

Lemma animation_gating_witness :
  dropExpired hostPlaying (eventQueue (draining [oldMessage; sampleGift; freshMessage]))
  = sampleGift :: [freshMessage]
  ∧ type sampleGift = ANIMATED_GIFT
  ∧ eventQueue
      (exec (Draft1.checkEventQueueAndMakeNecessaryDomUpdate hostPlaying)
         (draining [oldMessage; sampleGift; freshMessage]))
    = [sampleGift]
  ∧ domCalls
      (exec (Draft1.checkEventQueueAndMakeNecessaryDomUpdate hostPlaying)
         (draining [oldMessage; sampleGift; freshMessage]))
    = [addMessage (Some freshMessage)].
Proof.
  assert (dropExpired hostPlaying
            (eventQueue (draining [oldMessage; sampleGift; freshMessage]))
          = sampleGift :: [freshMessage]) as Hp by reflexivity.
  assert (type sampleGift = ANIMATED_GIFT) as Hg by reflexivity.
  split; [exact Hp|]. split; [exact Hg|].
  destruct (animation_gating hostPlaying _ _ _ Hp Hg) as (_ & Hbusy & _).
  assert (¬ (isAnimatingGiftUI hostPlaying = false
             ∧ isPossiblyAnimatingGift hostPlaying = false)) as Hn
    by (simpl; intros [? _]; discriminate).
  destruct (Hbusy Hn 1%nat freshMessage) as (Hq & _ & Hc).
  - reflexivity.
  - simpl. discriminate.
  - intros [|j] y Hj Hlt; [|lia]. simpl in Hj. by injection Hj as <-.
  - split; [exact Hq|exact Hc].
Defined.

(** ** The expiry loop *)

(** C6: the loop removes from the front the messages strictly more than
    20 s old and stops at the first element that is not one of them; a
    message exactly 20 s old stays.  It makes no call to the DOM and leaves
    the interval alone, and what the run emits afterwards comes from the
    queue the loop left. *)
Theorem expiry_rule (host : Host) (w : World) :
  let w' := exec (ignoreFirstEventWithTypeMessageOlderThan20Seconds host) w in
  let tick := Draft1.checkEventQueueAndMakeNecessaryDomUpdate host in
  (∃ removed, eventQueue w = removed ++ eventQueue w' ∧
      Forall (λ e, type e = MESSAGE ∧ 20000 < now host - timestamp e) removed)
  ∧ (∀ e q, eventQueue w' = e :: q →
       ¬ (type e = MESSAGE ∧ 20000 < now host - timestamp e))
  ∧ (∀ e q, eventQueue w = e :: q →
       (type e = MESSAGE ∧ 20000 < now host - timestamp e
        ↔ eventQueue w' ≠ e :: q))
  ∧ (∀ e q, eventQueue w = e :: q →
       type e = MESSAGE → now host - timestamp e = 20000 →
       eventQueue w' = e :: q)
  ∧ domCalls w' = domCalls w
  ∧ globalInterval w' = globalInterval w
  ∧ intervals w' = intervals w
  ∧ eventQueue (exec tick w) = remainingAfter host (eventQueue w')
  ∧ domCalls (exec tick w) = domCalls w ++ callsOf (emissionOf host (eventQueue w')).
Proof.
  intros w' tick. unfold w', tick. rewrite ignoreFirst_exec.
  unfold exec at 1 2 3 4 5 6 7 9 11. simpl.
  split; [|split; [|split; [|split]]].
  - exists (expiredPrefix host (eventQueue w)).
    split; [by rewrite expiredPrefix_dropExpired|apply expiredPrefix_Forall].
  - intros e q Hq. by apply dropExpired_head in Hq.
  - intros e q Hq. rewrite Hq. simpl.
    destruct (decide (expired host e)) as [He|He]; split; try done.
    intros _ Heq. pose proof (sublist_length _ _ (dropExpired_sublist host q)) as Hl.
    rewrite Heq in Hl. simpl in Hl. lia.
  - intros e q Hq Hm Hage. rewrite Hq. apply dropExpired_not_expired.
    unfold expired. lia.
  - repeat split; [apply tick_queue|apply tick_domCalls].
Qed.

(** ** Ingestion: order *)

Lemma filter_Forall {A} (P : A → Prop) `{!∀ x, Decision (P x)} (l : list A) :
  Forall P (filter P l).
Proof.
  apply Forall_forall. intros x Hx. by apply list_elem_of_filter in Hx as [Hx _].
Qed.

(** C5: the segment the handler appends is the block's animated gifts
    followed by its other events, each group in the order of the block.
    The events already queued keep their places at the front, and what
    follows them is that segment, in its order, less the events whose id is
    already queued or came earlier in the segment; it is the whole segment
    when the ids of the block are distinct and new. *)
Theorem priority_on_ingest (events : list Event) (w : World) :
  NoDup (id <$> eventQueue w) →
  let w' := exec (Draft1.eventHandler events) w in
  ∃ gifts others kept,
    sortEvents events = gifts ++ others
    ∧ Forall (λ e, type e = ANIMATED_GIFT) gifts
    ∧ Forall (λ e, type e ≠ ANIMATED_GIFT) others
    ∧ gifts `sublist_of` events
    ∧ others `sublist_of` events
    ∧ gifts ++ others ≡ₚ events
    ∧ eventQueue (exec (push (sortEvents events)) w) = eventQueue w ++ gifts ++ others
    ∧ eventQueue w' = eventQueue w ++ kept
    ∧ kept = firstOccurrences (idsOf (eventQueue w)) (gifts ++ others)
    ∧ kept `sublist_of` gifts ++ others
    ∧ NoDup (id <$> kept)
    ∧ (∀ e, e ∈ kept ↔
         (id e ∉ id <$> eventQueue w)
         ∧ ∃ k, (gifts ++ others) !! k = Some e
             ∧ ∀ j y, (gifts ++ others) !! j = Some y → (j < k)%nat → id y ≠ id e)
    ∧ (NoDup (id <$> events) →
       (∀ e, e ∈ events → id e ∉ id <$> eventQueue w) →
       kept = gifts ++ others).
Proof.
  intros Hnd w'.
  exists (filter (λ e, type e = ANIMATED_GIFT) events),
         (filter (λ e, type e ≠ ANIMATED_GIFT) events),
         (firstOccurrences (idsOf (eventQueue w)) (sortEvents events)).
  fold (sortEvents events).
  split; [done|]. split; [apply filter_Forall|]. split; [apply filter_Forall|].
  split; [apply sublist_filter|]. split; [apply sublist_filter|].
  split; [apply filter_app_complement|]. split; [done|].
  split; [|split; [done|split; [|split; [|split]]]].
  - unfold w'. rewrite eventHandler_queue_NoDup, firstOccurrences_app by done.
    f_equal; [apply firstOccurrences_NoDup_id; [done|set_solver]|].
    f_equal. set_solver.
  - apply firstOccurrences_sublist.
  - apply firstOccurrences_NoDup.
  - intros e. unfold idsOf at 1.
    rewrite <- (elem_of_list_to_set (C:=gset Z) (id e) (id <$> eventQueue w)).
    split.
    + intros [Hnew Hf]%firstOccurrences_firstWithId. split; [done|].
      apply firstWithId_lookup in Hf as (k & Hk & _ & Hbefore). by exists k.
    + intros (Hnew & k & Hk & Hbefore).
      apply firstWithId_firstOccurrences; [|done].
      apply firstWithId_lookup. by exists k.
  - intros Hids Hnew. apply firstOccurrences_NoDup_id.
    + eapply NoDup_Permutation_proper; [|exact Hids].
      apply fmap_Permutation, filter_app_complement.
    + rewrite sortEvents_ids. unfold idsOf. intros i Hi Hq.
      apply elem_of_list_to_set in Hi. apply elem_of_list_to_set in Hq.
      apply list_elem_of_fmap in Hi as (e & -> & He). by apply (Hnew e).
Qed.

Lemma priority_on_ingest_witness :
  NoDup (id <$> eventQueue (draining [oldMessage]))
  ∧ eventQueue
      (exec (Draft1.eventHandler [freshMessage; sampleGift; oldMessage; edgeMessage])
         (draining [oldMessage]))
    = [oldMessage; sampleGift; freshMessage; edgeMessage]
  ∧ ∃ gifts others kept,
      sortEvents [freshMessage; sampleGift; oldMessage; edgeMessage] = gifts ++ others
      ∧ Forall (λ e, type e = ANIMATED_GIFT) gifts
      ∧ Forall (λ e, type e ≠ ANIMATED_GIFT) others
      ∧ gifts `sublist_of` [freshMessage; sampleGift; oldMessage; edgeMessage]
      ∧ others `sublist_of` [freshMessage; sampleGift; oldMessage; edgeMessage]
      ∧ gifts ++ others ≡ₚ [freshMessage; sampleGift; oldMessage; edgeMessage]
      ∧ eventQueue
          (exec (push (sortEvents [freshMessage; sampleGift; oldMessage; edgeMessage]))
             (draining [oldMessage]))
        = eventQueue (draining [oldMessage]) ++ gifts ++ others
      ∧ eventQueue
          (exec (Draft1.eventHandler [freshMessage; sampleGift; oldMessage; edgeMessage])
             (draining [oldMessage]))
        = eventQueue (draining [oldMessage]) ++ kept
      ∧ kept = firstOccurrences (idsOf (eventQueue (draining [oldMessage])))
                 (gifts ++ others)
      ∧ kept `sublist_of` gifts ++ others
      ∧ NoDup (id <$> kept)
      ∧ (∀ e, e ∈ kept ↔
           (id e ∉ id <$> eventQueue (draining [oldMessage]))
           ∧ ∃ k, (gifts ++ others) !! k = Some e
               ∧ ∀ j y, (gifts ++ others) !! j = Some y → (j < k)%nat →
                   id y ≠ id e)
      ∧ (NoDup (id <$> [freshMessage; sampleGift; oldMessage; edgeMessage]) →
         (∀ e, e ∈ [freshMessage; sampleGift; oldMessage; edgeMessage] →
            id e ∉ id <$> eventQueue (draining [oldMessage])) →
         kept = gifts ++ others).
Proof.
  assert (NoDup (id <$> eventQueue (draining [oldMessage]))) as Hnd.
  { simpl. apply NoDup_singleton. }
  split; [exact Hnd|]. split; [by vm_compute|].
  exact (priority_on_ingest [freshMessage; sampleGift; oldMessage; edgeMessage]
           (draining [oldMessage]) Hnd).
Defined.

(** ** Ingestion: duplicates *)

Lemma concat_sortEvents_Permutation batches :
  concat (sortEvents <$> batches) ≡ₚ concat batches.
Proof.
  induction batches as [|events batches IH]; simpl; [done|].
  apply Permutation_app; [apply filter_app_complement|exact IH].
Qed.

Lemma firstWithId_concat_sortEvents i batches e :
  firstWithId i (concat (sortEvents <$> batches)) = Some e →
  ∃ pre events post,
    batches = pre ++ events :: post
    ∧ (i ∉ id <$> concat pre)
    ∧ firstWithId i (sortEvents events) = Some e.
Proof.
  induction batches as [|events batches IH]; simpl; [done|].
  rewrite firstWithId_app.
  destruct (firstWithId i (sortEvents events)) as [e'|] eqn:Hf.
  - intros [= ->]. exists [], events, batches.
    split; [done|]. split; [apply not_elem_of_nil|done].
  - intros (pre & ev & post & -> & Hpre & Hev)%IH.
    exists (events :: pre), ev, post. split; [done|]. split; [|done].
    simpl. rewrite fmap_app, elem_of_app. intros [Hin|Hin]; [|done].
    apply firstWithId_None in Hf. apply Hf.
    assert (i ∈ idsOf events) as Hi by (by apply elem_of_list_to_set).
    rewrite <- sortEvents_ids in Hi. by apply elem_of_list_to_set in Hi.
Qed.

(** In such a block, reordering does not change which event of an id comes
    first. *)
Lemma firstWithId_filter_all (P : Event → Prop) `{!∀ e, Decision (P e)} i l :
  (∀ e, e ∈ l → id e = i → P e) →
  firstWithId i (filter P l) = firstWithId i l.
Proof.
  induction l as [|x l IH]; intros Hall; [done|].
  rewrite filter_cons. simpl.
  destruct (decide (P x)) as [Hx|Hx]; simpl.
  - destruct (decide (id x = i)); [done|].
    apply IH. intros e He. apply Hall. by right.
  - rewrite decide_False.
    + apply IH. intros e He. apply Hall. by right.
    + intros Hi. apply Hx, Hall; [left|done].
Qed.

Lemma firstWithId_filter_none (P : Event → Prop) `{!∀ e, Decision (P e)} i l :
  (∀ e, e ∈ l → id e = i → ¬ P e) →
  firstWithId i (filter P l) = None.
Proof.
  intros Hnone. apply firstWithId_None. intros Hin.
  apply list_elem_of_fmap in Hin as (e & -> & He).
  apply list_elem_of_filter in He as [HP He]. by apply (Hnone e).
Qed.

Lemma firstWithId_sortEvents i events :
  sameKindPerId events →
  firstWithId i (sortEvents events) = firstWithId i events.
Proof.
  intros Hkind. unfold sortEvents. rewrite firstWithId_app.
  destruct (firstWithId i events) as [x|] eqn:Hx.
  - apply firstWithId_Some in Hx as Hx'. destruct Hx' as [Hin Hid].
    destruct (decide (type x = ANIMATED_GIFT)) as [Hg|Hg].
    + rewrite firstWithId_filter_all, Hx; [done|].
      intros e He Hi. apply (Hkind x e); [done..|congruence|done].
    + rewrite firstWithId_filter_none.
      * rewrite firstWithId_filter_all; [done|].
        intros e He Hi He'. apply Hg, (Hkind x e); [done..|congruence|done].
      * intros e He Hi He'. apply Hg, (Hkind x e); [done..|congruence|done].
  - pose proof Hx as Hnone. rewrite firstWithId_None in Hnone.
    assert (∀ P `{!∀ e, Decision (P e)}, firstWithId i (filter P events) = None) as Hf.
    { intros P ?. apply firstWithId_None. intros Hin. apply Hnone.
      apply list_elem_of_fmap in Hin as (e & -> & He).
      apply list_elem_of_filter in He as [_ He].
      apply list_elem_of_fmap. by exists e. }
    by rewrite !Hf.
Qed.

Lemma firstWithId_concat_sortEvents_same i batches :
  Forall sameKindPerId batches →
  firstWithId i (concat (sortEvents <$> batches)) = firstWithId i (concat batches).
Proof.
  induction 1 as [|events batches Hkind _ IH]; [done|].
  rewrite fmap_cons. cbn [concat].
  by rewrite !firstWithId_app, IH, firstWithId_sortEvents.
Qed.

(** C2, as stated, fails: a block holding a message and then an animated
    gift with the same id leaves the gift in the queue, not the message
    that came first. *)
Lemma first_seen_lost_within_batch :
  let first := mkEvent 1 MESSAGE 0 "first" in
  let second := mkEvent 1 ANIMATED_GIFT 0 "second" in
  let batches := [[first; second]] in
  let q := eventQueue (Draft1.handleAll batches Draft1.initial) in
  firstWithId 1 (concat batches) = Some first
  ∧ q = [second]
  ∧ ¬ (∀ e, e ∈ q → firstWithId (id e) (concat batches) = Some e).
Proof.
  intros first second batches q.
  assert (q = [second]) as Hq by (by vm_compute).
  split; [done|]. split; [done|].
  intros Hall. specialize (Hall second). rewrite Hq in Hall.
  specialize (Hall ltac:(left)). discriminate Hall.
Qed.

(** C2, amended: after any sequence of blocks handled from an empty queue,
    the queue holds each received id once, and the element kept for an id
    is the first with that id in queue order: it comes from the earliest
    block holding the id and is the first with that id in that block once
    reordered (animated gifts first).  It is the first received with that
    id whenever, in each block, the events of one id are all animated
    gifts or all not. *)
Theorem dedup_keeps_first_in_queue_order (batches : list (list Event)) (w : World) :
  eventQueue w = [] →
  let q := eventQueue (Draft1.handleAll batches w) in
  NoDup (id <$> q)
  ∧ (∀ i, i ∈ id <$> q ↔ i ∈ id <$> concat batches)
  ∧ (∀ e, e ∈ q ↔ firstWithId (id e) (concat (sortEvents <$> batches)) = Some e)
  ∧ (∀ e, e ∈ q →
       ∃ pre events post,
         batches = pre ++ events :: post
         ∧ (id e ∉ id <$> concat pre)
         ∧ firstWithId (id e) (sortEvents events) = Some e)
  ∧ (Forall sameKindPerId batches →
       ∀ e, e ∈ q ↔ firstWithId (id e) (concat batches) = Some e).
Proof.
  intros Hq q.
  assert (q = firstOccurrences ∅ (concat (sortEvents <$> batches))) as ->.
  { unfold q. rewrite handleAll_queue; rewrite Hq; [done|constructor]. }
  assert (∀ e, e ∈ firstOccurrences ∅ (concat (sortEvents <$> batches))
             ↔ firstWithId (id e) (concat (sortEvents <$> batches)) = Some e)
    as Hfirst.
  { intros e. split.
    - by intros [_ Hf]%firstOccurrences_firstWithId.
    - intros Hf. apply firstWithId_firstOccurrences; [done|set_solver]. }
  split; [apply firstOccurrences_NoDup|]. split; [|split; [exact Hfirst|split]].
  - intros i.
    assert (idsOf (firstOccurrences ∅ (concat (sortEvents <$> batches)))
            = idsOf (concat batches)) as Hids.
    { rewrite firstOccurrences_ids. unfold idsOf.
      rewrite (list_to_set_perm_L _ _
                 (fmap_Permutation id _ _ (concat_sortEvents_Permutation batches))).
      set_solver. }
    unfold idsOf in Hids. by rewrite <- !(elem_of_list_to_set (C:=gset Z)), Hids.
  - intros e He. by apply firstWithId_concat_sortEvents, Hfirst.
  - intros Hkind e. by rewrite Hfirst, firstWithId_concat_sortEvents_same.
Qed.

Lemma dedup_keeps_first_in_queue_order_witness :
  eventQueue Draft1.initial = []
  ∧ eventQueue
      (Draft1.handleAll
         [[oldMessage; sampleGift]; [mkEvent 1 GIFT 7 "again"; freshMessage]]
         Draft1.initial)
    = [sampleGift; oldMessage; freshMessage]
  ∧ NoDup
      (id <$> eventQueue
         (Draft1.handleAll
            [[oldMessage; sampleGift]; [mkEvent 1 GIFT 7 "again"; freshMessage]]
            Draft1.initial)).
Proof.
  split; [reflexivity|]. split; [by vm_compute|].
  exact (proj1 (dedup_keeps_first_in_queue_order
                  [[oldMessage; sampleGift]; [mkEvent 1 GIFT 7 "again"; freshMessage]]
                  Draft1.initial eq_refl)).
Defined.

(** ** The interval *)

(** C8: in every reachable world the running intervals are exactly the one
    held by [globalInterval].  A block that is not empty starts the
    interval when none is held and starts no second one otherwise; a run
    that finds the queue empty makes no call to the DOM and leaves no
    interval running; the next block that is not empty starts one
    again. *)
Theorem timer_lifecycle (w : World) :
  Draft1.reachable w →
  timerConsistent w
  ∧ (∀ events, (0 < length events)%nat → globalInterval w = None →
       let w' := exec (Draft1.eventHandler events) w in
       globalInterval w' = Some (nextHandle w) ∧ intervals w' = {[ nextHandle w ]})
  ∧ (∀ events h, globalInterval w = Some h →
       let w' := exec (Draft1.eventHandler events) w in
       globalInterval w' = Some h ∧ intervals w' = {[ h ]})
  ∧ (∀ host, eventQueue w = [] →
       let w' := exec (Draft1.checkEventQueueAndMakeNecessaryDomUpdate host) w in
       completion (Draft1.checkEventQueueAndMakeNecessaryDomUpdate host) w
       = Return false
       ∧ eventQueue w' = []
       ∧ domCalls w' = domCalls w
       ∧ globalInterval w' = None
       ∧ intervals w' = ∅
       ∧ ∀ events, (0 < length events)%nat →
           let w'' := exec (Draft1.eventHandler events) w' in
           ∃ h, globalInterval w'' = Some h ∧ intervals w'' = {[ h ]}).
Proof.
  intros [_ Ht]%reachable_invariant. unfold timerConsistent in *.
  split; [exact Ht|]. split; [|split].
  - intros events Hlen Hg. unfold exec.
    rewrite eventHandler_nonempty by done. simpl.
    rewrite Hg in *. simpl. split; [done|]. rewrite Ht. set_solver.
  - intros events h Hg. unfold exec.
    destruct events as [|e events].
    + rewrite eventHandler_empty. simpl. by rewrite Ht, Hg.
    + rewrite eventHandler_nonempty by (simpl; lia). simpl.
      rewrite Hg in *. done.
  - intros host Hq. unfold completion, exec.
    rewrite tick_empty by done. simpl.
    assert (match globalInterval w with
            | Some i => intervals w ∖ {[ i ]}
            | None => intervals w
            end = (∅ : gset positive)) as Hcleared.
    { destruct (globalInterval w); rewrite Ht; set_solver. }
    do 4 (split; [done|]). split; [exact Hcleared|].
    intros events Hlen. rewrite eventHandler_nonempty by done. simpl.
    eexists. split; [done|]. rewrite Hcleared. set_solver.
Qed.

Lemma timer_lifecycle_witness :
  let w := exec (Draft1.checkEventQueueAndMakeNecessaryDomUpdate hostIdle)
             (exec (Draft1.eventHandler [freshMessage]) Draft1.initial) in
  Draft1.reachable w
  ∧ eventQueue w = []
  ∧ intervals w = {[ 1%positive ]}
  ∧ intervals (exec (Draft1.checkEventQueueAndMakeNecessaryDomUpdate hostIdle) w) = ∅.
Proof.
  intros w.
  assert (Draft1.reachable w) as Hr.
  { unfold Draft1.reachable.
    eapply rtc_l; [apply (Draft1.step_events [freshMessage])|].
    eapply rtc_l; [|apply rtc_refl].
    apply (Draft1.step_interval hostIdle 1%positive). by vm_compute. }
  assert (eventQueue w = []) as Hq by reflexivity.
  split; [exact Hr|]. split; [exact Hq|]. split; [by vm_compute|].
  destruct (timer_lifecycle w Hr) as (_ & _ & _ & Htick).
  destruct (Htick hostIdle Hq) as (_ & _ & _ & _ & Hi & _).
  exact Hi.
Defined.

(** * Further properties of the helpers *)

(** ** The index of the first event that is not an animated gift *)

(** X1: [getFirstNotAnimatedGiftEventIndex] changes nothing and never
    throws.  It returns -1 exactly when every queued event is an animated
    gift (an empty queue included); any other result is the position,
    within the queue, of the first event that is not an animated gift. *)
Theorem getFirstNotAnimatedGiftEventIndex_result (w : World) :
  ∃ index,
    getFirstNotAnimatedGiftEventIndex w = (Return index, w)
    ∧ (index = -1 ↔ Forall (λ e, type e = ANIMATED_GIFT) (eventQueue w))
    ∧ (index ≠ -1 →
         0 ≤ index < Z.of_nat (length (eventQueue w))
         ∧ ∃ e, eventQueue w !! Z.to_nat index = Some e
             ∧ type e ≠ ANIMATED_GIFT
             ∧ ∀ j y, eventQueue w !! j = Some y → (j < Z.to_nat index)%nat →
                 type y = ANIMATED_GIFT).
Proof.
  exists (firstNotAnimatedGiftFrom 0 (eventQueue w)). split; [done|].
  rewrite firstNotAnimatedGiftFrom_spec.
  destruct (firstNotAnimatedGift (eventQueue w)) as [[k x]|] eqn:Hf.
  - apply firstNotAnimatedGift_Some in Hf as (Hk & Hx & Hbefore). split.
    + split; [lia|]. intros Hall.
      rewrite Forall_lookup in Hall. by destruct Hx, (Hall k x).
    + intros _. apply lookup_lt_Some in Hk as Hlt. split; [lia|].
      replace (Z.to_nat (0 + Z.of_nat k)) with k by lia. by exists x.
  - apply firstNotAnimatedGift_None in Hf. split; [done|]. by intros [].
Qed.

(** ** Removing duplicates *)

(** X2: [removeDuplicateEvents] never throws and touches the queue only.
    The queue it leaves has no two events with the same id, holds the same
    ids as before, and keeps, in their order, exactly the events that were
    the first with their id. *)
Theorem removeDuplicateEvents_result (w : World) :
  let w' := exec removeDuplicateEvents w in
  completion removeDuplicateEvents w = Return tt
  ∧ NoDup (id <$> eventQueue w')
  ∧ eventQueue w' `sublist_of` eventQueue w
  ∧ (∀ i, i ∈ id <$> eventQueue w' ↔ i ∈ id <$> eventQueue w)
  ∧ (∀ e, e ∈ eventQueue w' ↔
       ∃ k, eventQueue w !! k = Some e ∧
         ∀ j y, eventQueue w !! j = Some y → (j < k)%nat → id y ≠ id e)
  ∧ globalInterval w' = globalInterval w
  ∧ intervals w' = intervals w
  ∧ nextHandle w' = nextHandle w
  ∧ domCalls w' = domCalls w.
Proof.
  intros w'. unfold w'. js_unfold. simpl.
  rewrite removeDuplicateEvents_array_spec.
  split; [done|]. split; [apply firstOccurrences_NoDup|].
  split; [apply firstOccurrences_sublist|]. split; [|split; [|done]].
  - intros i. pose proof (firstOccurrences_ids ∅ (eventQueue w)) as Hids.
    unfold idsOf in Hids.
    rewrite <- !(elem_of_list_to_set (C:=gset Z)), Hids. set_solver.
  - intros e. split.
    + intros [_ Hf]%firstOccurrences_firstWithId.
      apply firstWithId_lookup in Hf as (k & Hk & _ & Hbefore). by exists k.
    + intros (k & Hk & Hbefore).
      apply firstWithId_firstOccurrences; [|set_solver].
      apply firstWithId_lookup. by exists k.
Qed.

(** X3: [removeDuplicateEvents] is idempotent, and it leaves the world
    exactly as it was if and only if no two queued events share an id. *)
Theorem removeDuplicateEvents_fixed (w : World) :
  exec removeDuplicateEvents (exec removeDuplicateEvents w)
  = exec removeDuplicateEvents w
  ∧ (exec removeDuplicateEvents w = w ↔ NoDup (id <$> eventQueue w)).
Proof.
  js_unfold. simpl. rewrite !removeDuplicateEvents_array_spec. split.
  - f_equal. apply firstOccurrences_NoDup_id;
      [apply firstOccurrences_NoDup|set_solver].
  - split.
    + intros Hw. rewrite <- Hw. simpl. apply firstOccurrences_NoDup.
    + intros Hnd. rewrite firstOccurrences_NoDup_id; [by destruct w|done|set_solver].
Qed.

(** ** Reordering a block *)

Lemma filter_all {A} (P : A → Prop) `{!∀ x, Decision (P x)} (l : list A) :
  Forall P l → filter P l = l.
Proof.
  induction 1 as [|x l Hx _ IH]; [done|]. by rewrite filter_cons_True, IH.
Qed.

Lemma filter_none {A} (P : A → Prop) `{!∀ x, Decision (P x)} (l : list A) :
  Forall (λ x, ¬ P x) l → filter P l = [].
Proof.
  induction 1 as [|x l Hx _ IH]; [done|]. by rewrite filter_cons_False.
Qed.

Lemma sortEvents_prioritised gifts others :
  Forall (λ e, type e = ANIMATED_GIFT) gifts →
  Forall (λ e, type e ≠ ANIMATED_GIFT) others →
  sortEvents (gifts ++ others) = gifts ++ others.
Proof.
  intros Hg Ho. unfold sortEvents. rewrite !filter_app.
  rewrite (filter_all _ gifts Hg), (filter_all _ others Ho).
  rewrite (filter_none _ others), (filter_none _ gifts).
  - by rewrite app_nil_r.
  - eapply Forall_impl; [exact Hg|]. naive_solver.
  - exact Ho.
Qed.

(** X4: [sortEvents] keeps the number of events and is idempotent, and it
    returns its argument unchanged if and only if the argument already is
    a run of animated gifts followed by a run of other events. *)
Theorem sortEvents_fixed (events : list Event) :
  length (sortEvents events) = length events
  ∧ sortEvents (sortEvents events) = sortEvents events
  ∧ (sortEvents events = events ↔
       ∃ gifts others,
         events = gifts ++ others
         ∧ Forall (λ e, type e = ANIMATED_GIFT) gifts
         ∧ Forall (λ e, type e ≠ ANIMATED_GIFT) others).
Proof.
  split; [apply sortEvents_length|]. split.
  - apply sortEvents_prioritised; apply filter_Forall.
  - split.
    + intros Hs. eexists _, _. split; [symmetry; exact Hs|].
      split; apply filter_Forall.
    + intros (gifts & others & -> & Hg & Ho). by apply sortEvents_prioritised.
Qed.

(** * Further properties of the drain callback *)

Lemma dropExpired_nil host q : dropExpired host q = [] ↔ Forall (expired host) q.
Proof.
  split; [|apply dropExpired_all].
  intros Hd. rewrite <- (expiredPrefix_dropExpired host q), Hd, app_nil_r.
  apply expiredPrefix_Forall.
Qed.

Lemma callsMade_tick host w :
  callsMade (Draft1.checkEventQueueAndMakeNecessaryDomUpdate host) w
  = callsOf (emissionOf host (dropExpired host (eventQueue w))).
Proof. unfold callsMade. by rewrite tick_domCalls, drop_app_length. Qed.

(** X5: how the first draft's drain callback completes.  It returns
    [false] exactly on an empty queue, throws a [TypeError] exactly on a
    queue that is not empty and holds expired messages only, and returns
    [true] exactly when some queued event is not an expired message. *)
Theorem tick_completion (host : Host) (w : World) :
  let tick := Draft1.checkEventQueueAndMakeNecessaryDomUpdate host in
  (completion tick w = Return false ↔ eventQueue w = [])
  ∧ (completion tick w = Throw TypeError ↔
       eventQueue w ≠ [] ∧ Forall (expired host) (eventQueue w))
  ∧ (completion tick w = Return true ↔
       ∃ e, e ∈ eventQueue w ∧ ¬ expired host e).
Proof.
  intros tick. unfold tick, completion.
  destruct (eventQueue w) as [|e0 q0] eqn:Hq.
  - rewrite tick_empty by done. simpl.
    split; [done|]. split; [by split; [|intros []]|].
    split; [done|]. intros (e & He & _). by apply elem_of_nil in He.
  - rewrite tick_nonempty by (by rewrite Hq). simpl. rewrite Hq.
    destruct (dropExpired host (e0 :: q0)) as [|e rest] eqn:Hd.
    + apply dropExpired_nil in Hd.
      split; [by split|]. split; [by split|]. split; [done|].
      intros (e & He & Hne). rewrite Forall_forall in Hd. by destruct Hne, (Hd e).
    + split; [by split|]. split.
      * split; [done|]. intros [_ Hall%dropExpired_nil]. congruence.
      * split; [|done]. intros _. exists e. split.
        -- eapply sublist_subseteq; [apply (dropExpired_sublist host)|].
           rewrite Hd. left.
        -- by apply dropExpired_head in Hd.
Qed.

(** X6: what a run of the first draft's drain callback never does: it adds
    no event to the queue and reorders none, starts no interval, hands out
    no handle, and takes back no call made to the DOM. *)
Theorem tick_frame (host : Host) (w : World) :
  let w' := exec (Draft1.checkEventQueueAndMakeNecessaryDomUpdate host) w in
  eventQueue w' `sublist_of` eventQueue w
  ∧ intervals w' ⊆ intervals w
  ∧ nextHandle w' = nextHandle w
  ∧ domCalls w `prefix_of` domCalls w'
  ∧ (globalInterval w' = globalInterval w ∨ globalInterval w' = None).
Proof.
  intros w'. unfold w'. split.
  { rewrite tick_queue. etrans; [apply remainingAfter_sublist|].
    apply dropExpired_sublist. }
  split; [|split; [|split]].
  - unfold exec. destruct (eventQueue w) as [|e q] eqn:Hq.
    + rewrite tick_empty by done. simpl. destruct (globalInterval w); set_solver.
    + by rewrite tick_nonempty by (by rewrite Hq).
  - unfold exec. destruct (eventQueue w) as [|e q] eqn:Hq.
    + by rewrite tick_empty by done.
    + by rewrite tick_nonempty by (by rewrite Hq).
  - rewrite tick_domCalls. by apply prefix_app_r.
  - unfold exec. destruct (eventQueue w) as [|e q] eqn:Hq.
    + rewrite tick_empty by done. by right.
    + rewrite tick_nonempty by (by rewrite Hq). by left.
Qed.

Lemma delete_NoDup_not_elem {A} (l : list A) k x :
  NoDup l → l !! k = Some x → x ∉ delete k l.
Proof.
  intros Hnd Hk. rewrite delete_take_drop.
  rewrite <- (take_drop_middle l k x Hk) in Hnd.
  apply NoDup_app in Hnd as (_ & Hdisj & Htail).
  apply NoDup_cons in Htail as [Hx _].
  rewrite elem_of_app. intros [Hin|Hin]; [|done].
  apply (Hdisj x Hin). left.
Qed.

(** The emitted event sits in the pruned queue, and what is left is the
    pruned queue without that position. *)
Lemma emission_position host pruned :
  match emissionOf host pruned with
  | NoEmission => remainingAfter host pruned = pruned ∨ pruned = []
  | Ordinary e | Animated e =>
      ∃ k, pruned !! k = Some e ∧ remainingAfter host pruned = delete k pruned
  end.
Proof.
  unfold emissionOf, remainingAfter. destruct pruned as [|e rest]; [by right|].
  destruct (decide (type e = ANIMATED_GIFT)); [|by exists 0%nat].
  destruct (negb _ && negb _); [by exists 0%nat|].
  destruct (firstNotAnimatedGift (e :: rest)) as [[k x]|] eqn:Hf; [|by left].
  apply firstNotAnimatedGift_Some in Hf as (Hk & _ & _). by exists k.
Qed.

Lemma emissionOf_wellTyped host pruned : wellTyped (emissionOf host pruned).
Proof.
  unfold emissionOf. destruct pruned as [|e rest]; [done|].
  destruct (decide (type e = ANIMATED_GIFT)); [|done].
  destruct (negb _ && negb _); [done|].
  destruct (firstNotAnimatedGift (e :: rest)) as [[k x]|] eqn:Hf; [|done].
  by apply firstNotAnimatedGift_Some in Hf as (_ & Hx & _).
Qed.

(** X7: on a queue without two events of the same id, every call a run
    makes to the DOM is about an event that was queued and no longer is;
    [animateGift] is called for animated gifts only. *)
Theorem emitted_event_leaves_queue (host : Host) (w : World) (c : DomCall) :
  NoDup (id <$> eventQueue w) →
  c ∈ callsMade (Draft1.checkEventQueueAndMakeNecessaryDomUpdate host) w →
  ∃ e, callArgument c = Some e
    ∧ e ∈ eventQueue w
    ∧ (e ∉ eventQueue (exec (Draft1.checkEventQueueAndMakeNecessaryDomUpdate host) w))
    ∧ (c = animateGift (Some e) → type e = ANIMATED_GIFT).
Proof.
  intros Hnd Hc. rewrite callsMade_tick in Hc. rewrite tick_queue.
  assert (NoDup (dropExpired host (eventQueue w))) as Hnd'.
  { eapply sublist_NoDup; [|apply dropExpired_sublist].
    by eapply NoDup_fmap_1. }
  pose proof (emission_position host (dropExpired host (eventQueue w))) as Hpos.
  pose proof (emissionOf_wellTyped host (dropExpired host (eventQueue w))) as Hty.
  destruct (emissionOf host (dropExpired host (eventQueue w))) as [|e|e];
    simpl in Hc.
  - by apply elem_of_nil in Hc.
  - destruct Hpos as (k & Hk & ->). apply list_elem_of_singleton in Hc as ->.
    exists e. split; [done|]. split; [|split; [|done]].
    + eapply sublist_subseteq; [apply (dropExpired_sublist host)|].
      by eapply list_elem_of_lookup_2.
    + by apply delete_NoDup_not_elem.
  - destruct Hpos as (k & Hk & ->). exists e.
    assert (callArgument c = Some e) as Harg.
    { apply elem_of_cons in Hc as [->|Hc]; [done|].
      by apply list_elem_of_singleton in Hc as ->. }
    split; [done|]. split; [|split; [|done]].
    + eapply sublist_subseteq; [apply (dropExpired_sublist host)|].
      by eapply list_elem_of_lookup_2.
    + by apply delete_NoDup_not_elem.
Qed.

Lemma emitted_event_leaves_queue_witness :
  NoDup (id <$> eventQueue (draining [oldMessage; freshMessage; sampleGift]))
  ∧ addMessage (Some freshMessage)
    ∈ callsMade (Draft1.checkEventQueueAndMakeNecessaryDomUpdate hostIdle)
        (draining [oldMessage; freshMessage; sampleGift])
  ∧ ∃ e, callArgument (addMessage (Some freshMessage)) = Some e
      ∧ e ∈ eventQueue (draining [oldMessage; freshMessage; sampleGift])
      ∧ (e ∉ eventQueue
            (exec (Draft1.checkEventQueueAndMakeNecessaryDomUpdate hostIdle)
               (draining [oldMessage; freshMessage; sampleGift])))
      ∧ (addMessage (Some freshMessage) = animateGift (Some e) →
           type e = ANIMATED_GIFT).
Proof.
  assert (NoDup (id <$> eventQueue (draining [oldMessage; freshMessage; sampleGift])))
    as Hnd.
  { simpl. apply NoDup_cons. split; [set_solver|].
    apply NoDup_cons. split; [set_solver|]. apply NoDup_singleton. }
  assert (addMessage (Some freshMessage)
          ∈ callsMade (Draft1.checkEventQueueAndMakeNecessaryDomUpdate hostIdle)
              (draining [oldMessage; freshMessage; sampleGift])) as Hc.
  { vm_compute. left. }
  split; [exact Hnd|]. split; [exact Hc|].
  exact (emitted_event_leaves_queue hostIdle _ _ Hnd Hc).
Defined.

(** ** What holds in every reachable world, continued *)

(** X8: in every reachable world the calls made to the DOM so far are a
    sequence of emissions: [addMessage(e)] alone for an event that is not
    an animated gift, [addMessage(e)] followed at once by [animateGift(e)]
    for an animated gift.  In particular no call was ever made with
    [undefined]. *)
Theorem reachable_dom_calls (w : World) :
  Draft1.reachable w →
  ∃ ems, domCalls w = concat (callsOf <$> ems) ∧ Forall wellTyped ems.
Proof.
  unfold Draft1.reachable. revert w. apply rtc_ind_r.
  - by exists [].
  - intros w1 w2 _ Hs (ems & Hcalls & Hty).
    destruct Hs as [events w1|host h w1 _].
    + exists ems. split; [|done]. rewrite <- Hcalls.
      destruct events as [|e events]; [done|].
      unfold exec. by rewrite eventHandler_nonempty by (simpl; lia).
    + exists (ems ++ [emissionOf host (dropExpired host (eventQueue w1))]). split.
      * rewrite tick_domCalls, Hcalls, fmap_app, concat_app. simpl.
        by rewrite app_nil_r.
      * apply Forall_app. split; [done|].
        apply Forall_singleton, emissionOf_wellTyped.
Qed.

Lemma reachable_dom_calls_witness :
  let w := exec (Draft1.checkEventQueueAndMakeNecessaryDomUpdate hostIdle)
             (exec (Draft1.eventHandler [freshMessage; sampleGift]) Draft1.initial) in
  Draft1.reachable w
  ∧ domCalls w = [addMessage (Some sampleGift); animateGift (Some sampleGift)]
  ∧ ∃ ems, domCalls w = concat (callsOf <$> ems) ∧ Forall wellTyped ems.
Proof.
  intros w.
  assert (Draft1.reachable w) as Hr.
  { unfold Draft1.reachable.
    eapply rtc_l; [apply (Draft1.step_events [freshMessage; sampleGift])|].
    eapply rtc_l; [|apply rtc_refl].
    apply (Draft1.step_interval hostIdle 1%positive). by vm_compute. }
  split; [exact Hr|]. split; [by vm_compute|].
  exact (reachable_dom_calls w Hr).
Defined.

(** X9: in every reachable world, whatever blocks arrived and whenever the
    interval fired, no two queued events share an id. *)
Theorem reachable_queue_unique_ids (w : World) :
  Draft1.reachable w → NoDup (id <$> eventQueue w).
Proof. by intros [Hnd _]%reachable_invariant. Qed.

Lemma reachable_queue_unique_ids_witness :
  let w := exec (Draft1.eventHandler [oldMessage; mkEvent 1 GIFT 3 "again"; sampleGift])
             (exec (Draft1.checkEventQueueAndMakeNecessaryDomUpdate hostIdle)
                (exec (Draft1.eventHandler [oldMessage; freshMessage])
                   Draft1.initial)) in
  Draft1.reachable w
  ∧ eventQueue w = [sampleGift; oldMessage]
  ∧ NoDup (id <$> eventQueue w).
Proof.
  intros w.
  assert (Draft1.reachable w) as Hr.
  { unfold Draft1.reachable.
    eapply rtc_l; [apply (Draft1.step_events [oldMessage; freshMessage])|].
    eapply rtc_l;
      [apply (Draft1.step_interval hostIdle 1%positive); by vm_compute|].
    eapply rtc_l; [|apply rtc_refl].
    apply (Draft1.step_events [oldMessage; mkEvent 1 GIFT 3 "again"; sampleGift]). }
  split; [exact Hr|]. split; [by vm_compute|].
  exact (reachable_queue_unique_ids w Hr).
Defined.

(** * The second draft *)

Ltac js_unfold2 :=
  unfold exec, completion,
    Draft2.checkEventQueueAndMakeNecessaryDomUpdate, Draft2.eventHandler,
    Draft2.removeEventsWithTypeMessageOlderThan20Seconds in *;
  js_unfold.

Lemma keepsEvent_spec host e :
  Draft2.keepsEvent host e = true ↔ ¬ expired host e.
Proof.
  unfold Draft2.keepsEvent, expired.
  destruct (decide (type e = MESSAGE)) as [Hm|Hm]; [|naive_solver].
  rewrite Qle_bool_iff. unfold Qle, Qdiv, Qmult, Qinv, inject_Z. simpl.
  split; [intros Hle [_ Hlt]; lia|]. intros Hne.
  destruct (decide (20000 < now host - timestamp e)); [by destruct Hne|lia].
Qed.

Lemma keepsEvent_filter host (q : list Event) :
  filter (λ event, Draft2.keepsEvent host event = true) q
  = filter (λ e, ¬ expired host e) q.
Proof. apply list_filter_iff. intros e. apply keepsEvent_spec. Qed.



Opaque firstNotAnimatedGiftFrom firstNotAnimatedGift.

(** One run of the callback of the second draft on a queue that is not
    empty: the filter, then at most one emission. *)
Lemma tick2_nonempty host w :
  eventQueue w ≠ [] →
  Draft2.checkEventQueueAndMakeNecessaryDomUpdate host w
  = (match filter (λ e, ¬ expired host e) (eventQueue w) with
     | [] => Throw TypeError
     | _ :: _ => Return tt
     end,
     {| eventQueue :=
          remainingAfter host (filter (λ e, ¬ expired host e) (eventQueue w));
        globalInterval := globalInterval w;
        intervals := intervals w;
        nextHandle := nextHandle w;
        domCalls :=
          domCalls w
          ++ callsOf (emissionOf host
                        (filter (λ e, ¬ expired host e) (eventQueue w))) |}).
Proof.
  intros Hne. js_unfold2. simpl.
  destruct (decide (length (eventQueue w) ≤ 0)%nat) as [Hl|_].
  { destruct (eventQueue w); [done|simpl in Hl; lia]. }
  rewrite keepsEvent_filter.
  unfold remainingAfter, emissionOf.
  destruct (filter (λ e, ¬ expired host e) (eventQueue w)) as [|e rest]; simpl.
  { by rewrite app_nil_r. }
  destruct (decide (type e = ANIMATED_GIFT)) as [Hg|Hg]; simpl; [|done].
  destruct (negb (isAnimatingGiftUI host) && negb (isPossiblyAnimatingGift host));
    simpl.
  - by rewrite <- app_assoc.
  - rewrite firstNotAnimatedGiftFrom_spec.
    destruct (firstNotAnimatedGift (e :: rest)) as [[k x]|] eqn:Hf; simpl.
    + apply firstNotAnimatedGift_Some in Hf as (Hk & _ & _).
      destruct (decide (0 + Z.of_nat k ≠ -1)); [simpl|lia].
      replace (Z.to_nat (0 + Z.of_nat k)) with k by lia. by rewrite Hk.
    + destruct (decide (-1 ≠ -1)); [done|]. by rewrite app_nil_r.
Qed.

Transparent firstNotAnimatedGiftFrom firstNotAnimatedGift.

Lemma tick2_empty host w :
  eventQueue w = [] →
  Draft2.checkEventQueueAndMakeNecessaryDomUpdate host w = (Return tt, w).
Proof. intros Hq. js_unfold2. by rewrite Hq. Qed.




(** X12: in the second draft neither callback starts or stops an interval
    or touches [globalInterval]: the interval set when the module is loaded
    keeps running, even across runs that find the queue empty.  Its handler
    leaves the same queue as the handler of the first draft. *)
Theorem draft2_interval_untouched (host : Host) (events : list Event) (w : World) :
  let afterTick := exec (Draft2.checkEventQueueAndMakeNecessaryDomUpdate host) w in
  let afterEvents := exec (Draft2.eventHandler events) w in
  intervals afterTick = intervals w
  ∧ globalInterval afterTick = globalInterval w
  ∧ nextHandle afterTick = nextHandle w
  ∧ intervals afterEvents = intervals w
  ∧ globalInterval afterEvents = globalInterval w
  ∧ nextHandle afterEvents = nextHandle w
  ∧ domCalls afterEvents = domCalls w
  ∧ eventQueue afterEvents = eventQueue (exec (Draft1.eventHandler events) w).
Proof.
  intros afterTick afterEvents.
  assert (intervals afterTick = intervals w
          ∧ globalInterval afterTick = globalInterval w
          ∧ nextHandle afterTick = nextHandle w) as (-> & -> & ->).
  { unfold afterTick, exec. destruct (eventQueue w) as [|e q] eqn:Hq.
    - by rewrite tick2_empty by done.
    - by rewrite tick2_nonempty by (by rewrite Hq). }
  do 3 (split; [done|]). unfold afterEvents.
  destruct events as [|e events]; [done|].
  rewrite eventHandler_queue. unfold exec, Draft2.eventHandler.
  rewrite decide_True by (simpl; lia). js_unfold. simpl.
  by rewrite removeDuplicateEvents_array_spec.
Qed.





(** * The first draft, continued *)

(** X15: the first draft displays an expired message in one case only: the
    queue left by the expiry loop starts with an animated gift, an
    animation is reported, and the message is the first event behind that
    is not an animated gift; it is then displayed as an ordinary event. *)
Theorem expired_shown_only_when_skipping
    (host : Host) (w : World) (c : DomCall) (e : Event) :
  c ∈ callsMade (Draft1.checkEventQueueAndMakeNecessaryDomUpdate host) w →
  callArgument c = Some e →
  expired host e →
  c = addMessage (Some e)
  ∧ ¬ animationIdle host
  ∧ ∃ g rest k,
      dropExpired host (eventQueue w) = g :: rest
      ∧ type g = ANIMATED_GIFT
      ∧ firstNotAnimatedGift rest = Some (k, e).
Proof.
  rewrite callsMade_tick. intros Hc Harg [Hm Hold]. unfold emissionOf in Hc.
  destruct (dropExpired host (eventQueue w)) as [|g rest] eqn:Hd.
  { by apply elem_of_nil in Hc. }
  destruct (decide (type g = ANIMATED_GIFT)) as [Hg|Hg].
  - destruct (negb (isAnimatingGiftUI host) && negb (isPossiblyAnimatingGift host))
      eqn:Hidle.
    + assert (callArgument c = Some g) as Hcg.
      { simpl in Hc. apply elem_of_cons in Hc as [->|Hc]; [done|].
        by apply list_elem_of_singleton in Hc as ->. }
      congruence.
    + unfold firstNotAnimatedGift in *. simpl in Hc.
      rewrite decide_False in Hc by (by intros Hn).
      destruct (list_find _ rest) as [[k x]|] eqn:Hf; simpl in Hc.
      * apply list_elem_of_singleton in Hc as ->. simpl in Harg.
        injection Harg as ->. split; [done|]. split.
        -- intros Hi. apply idle_flags in Hi. congruence.
        -- by exists g, rest, k.
      * by apply elem_of_nil in Hc.
  - simpl in Hc. apply list_elem_of_singleton in Hc as ->. simpl in Harg.
    injection Harg as ->. apply dropExpired_head in Hd. by destruct Hd.
Qed.

Lemma expired_shown_only_when_skipping_witness :
  addMessage (Some oldMessage)
  ∈ callsMade (Draft1.checkEventQueueAndMakeNecessaryDomUpdate hostPlaying)
      (draining [sampleGift; oldMessage; freshMessage])
  ∧ callArgument (addMessage (Some oldMessage)) = Some oldMessage
  ∧ expired hostPlaying oldMessage
  ∧ ¬ animationIdle hostPlaying
  ∧ ∃ g rest k,
      dropExpired hostPlaying (eventQueue (draining [sampleGift; oldMessage; freshMessage]))
      = g :: rest
      ∧ type g = ANIMATED_GIFT
      ∧ firstNotAnimatedGift rest = Some (k, oldMessage).
Proof.
  assert (addMessage (Some oldMessage)
          ∈ callsMade (Draft1.checkEventQueueAndMakeNecessaryDomUpdate hostPlaying)
              (draining [sampleGift; oldMessage; freshMessage])) as Hc.
  { vm_compute. left. }
  assert (expired hostPlaying oldMessage) as Hold.
  { unfold expired. simpl. split; [done|lia]. }
  split; [exact Hc|]. split; [reflexivity|]. split; [exact Hold|].
  exact (proj2 (expired_shown_only_when_skipping hostPlaying _ _ _ Hc eq_refl Hold)).
Defined.

(** ** The handler and the ids *)

Lemma firstOccurrences_length seen l :
  length (firstOccurrences seen l) = size (idsOf l ∖ seen).
Proof.
  rewrite <- firstOccurrences_ids. unfold idsOf.
  rewrite size_list_to_set by apply firstOccurrences_NoDup.
  by rewrite length_fmap.
Qed.

(** X16: called in a world whose queue has no two events of the same id,
    the handler never throws and makes no call to the DOM; the queue then
    holds the ids it held and those of the block, and grows by one event
    for each id of the block that was not queued.  A block of ids that are
    all queued already leaves the queue as it was. *)
Theorem eventHandler_new_ids (events : list Event) (w : World) :
  NoDup (id <$> eventQueue w) →
  let w' := exec (Draft1.eventHandler events) w in
  completion (Draft1.eventHandler events) w = Return tt
  ∧ domCalls w' = domCalls w
  ∧ idsOf (eventQueue w') = idsOf (eventQueue w) ∪ idsOf events
  ∧ length (eventQueue w')
    = (length (eventQueue w) + size (idsOf events ∖ idsOf (eventQueue w)))%nat
  ∧ (idsOf events ⊆ idsOf (eventQueue w) → eventQueue w' = eventQueue w).
Proof.
  intros Hnd w'.
  assert (eventQueue w'
          = eventQueue w
            ++ firstOccurrences (idsOf (eventQueue w) ∪ ∅) (sortEvents events))
    as Hq'.
  { unfold w'. rewrite eventHandler_queue_NoDup, firstOccurrences_app by done.
    f_equal. apply firstOccurrences_NoDup_id; [done|set_solver]. }
  assert (length (firstOccurrences (idsOf (eventQueue w) ∪ ∅) (sortEvents events))
          = size (idsOf events ∖ idsOf (eventQueue w))) as Hlen.
  { rewrite firstOccurrences_length, sortEvents_ids. f_equal. set_solver. }
  split; [|split; [|split; [|split]]].
  - unfold completion. destruct events as [|e events]; [done|].
    by rewrite eventHandler_nonempty by (simpl; lia).
  - unfold w', exec. destruct events as [|e events]; [done|].
    by rewrite eventHandler_nonempty by (simpl; lia).
  - rewrite Hq'. unfold idsOf at 1. rewrite fmap_app, list_to_set_app_L.
    fold (idsOf (eventQueue w)).
    fold (idsOf (firstOccurrences (idsOf (eventQueue w) ∪ ∅) (sortEvents events))).
    rewrite firstOccurrences_ids, sortEvents_ids.
    apply set_eq. intros i. rewrite !elem_of_union, elem_of_difference.
    destruct (decide (i ∈ idsOf (eventQueue w))); set_solver.
  - by rewrite Hq', length_app, Hlen.
  - intros Hsub. rewrite Hq'.
    assert (idsOf events ∖ idsOf (eventQueue w) = ∅) as Hempty by set_solver.
    rewrite Hempty, size_empty in Hlen. apply nil_length_inv in Hlen.
    by rewrite Hlen, app_nil_r.
Qed.

Lemma eventHandler_new_ids_witness :
  NoDup (id <$> eventQueue (draining [oldMessage; sampleGift]))
  ∧ eventQueue
      (exec (Draft1.eventHandler [freshMessage; mkEvent 1 GIFT 3 "again"; freshMessage])
         (draining [oldMessage; sampleGift]))
    = [oldMessage; sampleGift; freshMessage]
  ∧ length
      (eventQueue
         (exec (Draft1.eventHandler [freshMessage; mkEvent 1 GIFT 3 "again"; freshMessage])
            (draining [oldMessage; sampleGift])))
    = (length (eventQueue (draining [oldMessage; sampleGift]))
       + size (idsOf [freshMessage; mkEvent 1 GIFT 3 "again"; freshMessage]
               ∖ idsOf (eventQueue (draining [oldMessage; sampleGift]))))%nat.
Proof.
  assert (NoDup (id <$> eventQueue (draining [oldMessage; sampleGift]))) as Hnd.
  { simpl. apply NoDup_cons. split; [set_solver|]. apply NoDup_singleton. }
  split; [exact Hnd|]. split; [by vm_compute|].
  destruct (eventHandler_new_ids
              [freshMessage; mkEvent 1 GIFT 3 "again"; freshMessage]
              (draining [oldMessage; sampleGift]) Hnd) as (_ & _ & _ & Hlen & _).
  exact Hlen.
Defined.

(** ** The helpers on an empty queue *)

(** X17: none of the helpers of the drain callback checks that the queue
    holds an event.  On an empty queue [processNormalEvent] calls
    [addMessage(undefined)], [processAnimatedGiftEvent] calls
    [addMessage(undefined)] and [animateGift(undefined)],
    [processFirstNotAnimatedGiftEvent] does nothing, and
    [isFirstEventInQueueAnAnimatedGift] and the expiry loop throw a
    [TypeError]; only the callback's own test keeps them from it. *)
Theorem helpers_on_empty_queue (host : Host) (w : World) :
  eventQueue w = [] →
  Draft1.processNormalEvent w
  = (Return tt,
     {| eventQueue := []; globalInterval := globalInterval w;
        intervals := intervals w; nextHandle := nextHandle w;
        domCalls := domCalls w ++ [addMessage None] |})
  ∧ Draft1.processAnimatedGiftEvent w
    = (Return tt,
       {| eventQueue := []; globalInterval := globalInterval w;
          intervals := intervals w; nextHandle := nextHandle w;
          domCalls := domCalls w ++ [addMessage None; animateGift None] |})
  ∧ Draft1.processFirstNotAnimatedGiftEvent w = (Return tt, w)
  ∧ completion Draft1.isFirstEventInQueueAnAnimatedGift w = Throw TypeError
  ∧ completion (ignoreFirstEventWithTypeMessageOlderThan20Seconds host) w
    = Throw TypeError
  ∧ callsMade (Draft1.checkEventQueueAndMakeNecessaryDomUpdate host) w = [].
Proof.
  intros Hq. split; [|split; [|split; [|split; [|split]]]].
  - js_unfold. rewrite Hq. simpl. by rewrite Hq.
  - js_unfold. rewrite Hq. simpl. by rewrite Hq, <- app_assoc.
  - js_unfold. by rewrite Hq.
  - js_unfold. by rewrite Hq.
  - rewrite ignoreFirst_completion. by rewrite Hq.
  - by rewrite callsMade_tick, Hq.
Qed.

Lemma helpers_on_empty_queue_witness :
  eventQueue Draft1.initial = []
  ∧ domCalls (exec Draft1.processAnimatedGiftEvent Draft1.initial)
    = [addMessage None; animateGift None]
  ∧ completion Draft1.isFirstEventInQueueAnAnimatedGift Draft1.initial
    = Throw TypeError.
Proof.
  split; [reflexivity|].
  destruct (helpers_on_empty_queue hostIdle Draft1.initial eq_refl)
    as (_ & Hanimated & _ & Hfirst & _).
  split; [|exact Hfirst].
  unfold exec. by rewrite Hanimated.
Defined.

(** ** Draining *)

Lemma idle_tick_shrinks host w :
  animationIdle host →
  (length (eventQueue (exec (Draft1.checkEventQueueAndMakeNecessaryDomUpdate host) w))
   ≤ length (eventQueue w) - 1)%nat.
Proof.
  intros Hidle%idle_flags. rewrite tick_queue.
  pose proof (sublist_length _ _ (dropExpired_sublist host (eventQueue w))) as Hl.
  unfold remainingAfter. rewrite Hidle.
  destruct (dropExpired host (eventQueue w)) as [|e rest]; simpl in *; [lia|].
  destruct (decide (type e = ANIMATED_GIFT)); lia.
Qed.

(** X18: while no animation is reported, the interval firing as many
    times as there are queued events empties the queue, whatever the clock
    reads; the next firing makes no call to the DOM, returns [false] and
    clears [globalInterval]. *)
Theorem idle_ticks_drain (hosts : list Host) (w : World) :
  Forall animationIdle hosts →
  (length (eventQueue w) ≤ length hosts)%nat →
  eventQueue (tickAll hosts w) = []
  ∧ ∀ host,
      Draft1.checkEventQueueAndMakeNecessaryDomUpdate host (tickAll hosts w)
      = (Return false,
         {| eventQueue := [];
            globalInterval := None;
            intervals := match globalInterval (tickAll hosts w) with
                         | Some i => intervals (tickAll hosts w) ∖ {[ i ]}
                         | None => intervals (tickAll hosts w)
                         end;
            nextHandle := nextHandle (tickAll hosts w);
            domCalls := domCalls (tickAll hosts w) |}).
Proof.
  intros Hidle Hlen.
  assert (eventQueue (tickAll hosts w) = []) as Hq.
  { unfold tickAll. revert w Hlen.
    induction Hidle as [|host hosts Hi _ IH]; intros w Hlen; simpl in *.
    - by apply nil_length_inv, Nat.le_0_r.
    - apply IH. pose proof (idle_tick_shrinks host w Hi). lia. }
  split; [exact Hq|]. intros host. by apply tick_empty.
Qed.

Lemma idle_ticks_drain_witness :
  Forall animationIdle [hostIdle; hostIdle; hostIdle]
  ∧ (length (eventQueue (draining [sampleGift; freshMessage; edgeMessage]))
     ≤ length [hostIdle; hostIdle; hostIdle])%nat
  ∧ eventQueue
      (tickAll [hostIdle; hostIdle; hostIdle]
         (draining [sampleGift; freshMessage; edgeMessage]))
    = []
  ∧ domCalls
      (tickAll [hostIdle; hostIdle; hostIdle]
         (draining [sampleGift; freshMessage; edgeMessage]))
    = [addMessage (Some sampleGift); animateGift (Some sampleGift);
       addMessage (Some freshMessage); addMessage (Some edgeMessage)].
Proof.
  assert (Forall animationIdle [hostIdle; hostIdle; hostIdle]) as Hidle
    by (repeat constructor).
  assert (length (eventQueue (draining [sampleGift; freshMessage; edgeMessage]))
          ≤ length [hostIdle; hostIdle; hostIdle])%nat as Hlen by (simpl; lia).
  split; [exact Hidle|]. split; [exact Hlen|].
  split; [|by vm_compute].
  exact (proj1 (idle_ticks_drain _ _ Hidle Hlen)).
Defined.

(** ** After an exception *)

(** X19: a run of the first draft's drain callback that throws has made no
    call to the DOM and leaves the queue empty and the interval as it was;
    the run after it, if no block arrived in between, returns [false] and
    clears [globalInterval]. *)
Theorem tick_after_throw (host next : Host) (w : World) :
  completion (Draft1.checkEventQueueAndMakeNecessaryDomUpdate host) w
  = Throw TypeError →
  let w' := exec (Draft1.checkEventQueueAndMakeNecessaryDomUpdate host) w in
  eventQueue w' = []
  ∧ domCalls w' = domCalls w
  ∧ globalInterval w' = globalInterval w
  ∧ intervals w' = intervals w
  ∧ completion (Draft1.checkEventQueueAndMakeNecessaryDomUpdate next) w'
    = Return false
  ∧ globalInterval (exec (Draft1.checkEventQueueAndMakeNecessaryDomUpdate next) w')
    = None
  ∧ domCalls (exec (Draft1.checkEventQueueAndMakeNecessaryDomUpdate next) w')
    = domCalls w.
Proof.
  intros Hthrow w'.
  assert (eventQueue w ≠ [] ∧ dropExpired host (eventQueue w) = [])
    as [Hne Hd].
  { unfold completion in Hthrow. destruct (eventQueue w) as [|e q] eqn:Hq.
    - by rewrite tick_empty in Hthrow.
    - rewrite tick_nonempty in Hthrow by (by rewrite Hq). simpl in Hthrow.
      rewrite Hq in Hthrow. split; [done|].
      by destruct (dropExpired host (e :: q)). }
  assert (w' = {| eventQueue := []; globalInterval := globalInterval w;
                  intervals := intervals w; nextHandle := nextHandle w;
                  domCalls := domCalls w |}) as Hw'.
  { unfold w', exec. rewrite tick_nonempty by done. rewrite Hd. simpl.
    by rewrite app_nil_r. }
  rewrite Hw'. do 4 (split; [done|]).
  unfold completion, exec. by rewrite tick_empty.
Qed.

Lemma tick_after_throw_witness :
  completion (Draft1.checkEventQueueAndMakeNecessaryDomUpdate hostIdle)
    (draining [oldMessage])
  = Throw TypeError
  ∧ globalInterval
      (exec (Draft1.checkEventQueueAndMakeNecessaryDomUpdate hostPlaying)
         (exec (Draft1.checkEventQueueAndMakeNecessaryDomUpdate hostIdle)
            (draining [oldMessage])))
    = None.
Proof.
  assert (completion (Draft1.checkEventQueueAndMakeNecessaryDomUpdate hostIdle)
            (draining [oldMessage]) = Throw TypeError) as Hthrow by (by vm_compute).
  split; [exact Hthrow|].
  destruct (tick_after_throw hostIdle hostPlaying (draining [oldMessage]) Hthrow)
    as (_ & _ & _ & _ & _ & Hg & _).
  exact Hg.
Defined.
